(** * akvcam: the doubly-linked list of [src/list.c]

    A shallow embedding of the list container of the akvcam driver and the
    properties of its operations.  The C code works on a heap of list
    headers ([struct akvcam_list]) and of nodes ([struct
    akvcam_list_element]) linked by raw pointers; the embedding keeps that
    heap explicit, so that dangling pointers, null dereferences and
    aliasing are visible in the model.  [akvcam_list_new] and
    [akvcam_list_delete] only wrap the allocation of the header and the
    reference counter of [akvcam_object]; the properties below start from
    a header that is live. *)

From Stdlib Require Import ZArith Lia.
From stdpp Require Import base option list gmap.

Local Open Scope Z_scope.

(** ** Machine model *)

(** Pointers are addresses; [NULL] is address 0.  Function pointers
    (deleters) are addresses too. *)
Definition NULL : Z := 0.

(** [ENOMEM] of the kernel's errno-base.h. *)
Definition ENOMEM : Z := 12.

(** [size_t] is a 64-bit unsigned integer, [ssize_t] its signed twin. *)
Definition size_wrap (z : Z) : Z := z mod 2 ^ 64.
Definition to_ssize (z : Z) : Z := if z <? 2 ^ 63 then z else z - 2 ^ 64.

(** [struct akvcam_list_element]. *)
Record akvcam_list_element := Element {
  el_data : Z;
  el_deleter : Z;
  el_prev : Z;
  el_next : Z
}.

(** [struct akvcam_list]. *)
Record akvcam_list := List {
  l_self : Z;
  l_size : Z;
  l_head : Z;
  l_tail : Z
}.

(** One invocation [fn(&node->data)] of a deleter callback, with the
    payload handle the node held at that moment. *)
Record deleter_call := DeleterCall {
  dc_fn : Z;
  dc_node : Z;
  dc_data : Z
}.

(** The memory the list code touches: the live list headers, the live
    nodes, the payload bytes, the external last-error slot, and the trace
    of the deleter callbacks invoked so far (oldest first). *)
Record machine := Machine {
  lists : gmap Z akvcam_list;
  nodes : gmap Z akvcam_list_element;
  bytes : gmap Z Z;
  last_error : Z;
  deleter_calls : list deleter_call
}.

Definition with_lists (f : gmap Z akvcam_list → gmap Z akvcam_list) (m : machine) : machine :=
  Machine (f (lists m)) (nodes m) (bytes m) (last_error m) (deleter_calls m).
Definition with_nodes (f : gmap Z akvcam_list_element → gmap Z akvcam_list_element)
    (m : machine) : machine :=
  Machine (lists m) (f (nodes m)) (bytes m) (last_error m) (deleter_calls m).
Definition with_bytes (f : gmap Z Z → gmap Z Z) (m : machine) : machine :=
  Machine (lists m) (nodes m) (f (bytes m)) (last_error m) (deleter_calls m).

(** A C call either returns (with a value and the memory it leaves),
    faults (a dereference of [NULL] or of a block that is not live), or
    has not finished within the fuel given to its unbounded loop. *)
Inductive outcome (A : Type) : Type :=
  | Done (a : A) (m : machine)
  | Fault
  | OutOfFuel.
Arguments Done {A} a m.
Arguments Fault {A}.
Arguments OutOfFuel {A}.

Definition M (A : Type) : Type := machine → outcome A.

Definition ret {A} (a : A) : M A := λ m, Done a m.
Definition bind {A B} (c : M A) (k : A → M B) : M B :=
  λ m, match c m with
       | Done a m' => k a m'
       | Fault => Fault
       | OutOfFuel => OutOfFuel
       end.
Definition out_of_fuel {A} : M A := λ _, OutOfFuel.

Notation "'let*' x ':=' c 'in' k" := (bind c (λ x, k))
  (at level 10, x pattern, c at level 100, k at level 200, only parsing).
Notation "c ';;' k" := (bind c (λ _, k))
  (at level 100, k at level 200, right associativity, only parsing).

(** *** Memory primitives *)

Definition load_list (p : Z) : M akvcam_list := λ m,
  if p =? NULL then Fault
  else match lists m !! p with
       | Some L => Done L m
       | None => Fault
       end.

Definition store_list (p : Z) (L : akvcam_list) : M unit := λ m,
  if p =? NULL then Fault
  else match lists m !! p with
       | Some _ => Done tt (with_lists (insert p L) m)
       | None => Fault
       end.

Definition load_node (p : Z) : M akvcam_list_element := λ m,
  if p =? NULL then Fault
  else match nodes m !! p with
       | Some e => Done e m
       | None => Fault
       end.

Definition store_node (p : Z) (e : akvcam_list_element) : M unit := λ m,
  if p =? NULL then Fault
  else match nodes m !! p with
       | Some _ => Done tt (with_nodes (insert p e) m)
       | None => Fault
       end.

(** Field writes [p->field = v]. *)
Definition set_data (p v : Z) : M unit :=
  let* e := load_node p in
  store_node p (Element v (el_deleter e) (el_prev e) (el_next e)).
Definition set_deleter (p v : Z) : M unit :=
  let* e := load_node p in
  store_node p (Element (el_data e) v (el_prev e) (el_next e)).
Definition set_prev (p v : Z) : M unit :=
  let* e := load_node p in
  store_node p (Element (el_data e) (el_deleter e) v (el_next e)).
Definition set_next (p v : Z) : M unit :=
  let* e := load_node p in
  store_node p (Element (el_data e) (el_deleter e) (el_prev e) v).

Definition set_size (p v : Z) : M unit :=
  let* L := load_list p in
  store_list p (List (l_self L) v (l_head L) (l_tail L)).
Definition set_head (p v : Z) : M unit :=
  let* L := load_list p in
  store_list p (List (l_self L) (l_size L) v (l_tail L)).
Definition set_tail (p v : Z) : M unit :=
  let* L := load_list p in
  store_list p (List (l_self L) (l_size L) (l_head L) v).

(** [kzalloc(sizeof(struct akvcam_list_element), GFP_KERNEL)].  The
    allocator's answer [alloc] is an input of the model: [NULL] when the
    allocation fails, otherwise the address of the new block, which the
    allocator hands out zeroed. *)
Definition kzalloc_element (alloc : Z) : M Z := λ m,
  if alloc =? NULL then Done NULL m
  else Done alloc (with_nodes (insert alloc (Element 0 0 0 0)) m).

(** [kfree(p)] of a node: nothing for [NULL], a fault for a block that is
    not live. *)
Definition kfree_element (p : Z) : M unit := λ m,
  if p =? NULL then Done tt m
  else match nodes m !! p with
       | Some _ => Done tt (with_nodes (delete p) m)
       | None => Fault
       end.

(** [akvcam_set_last_error] of utils.h: writes the external slot. *)
Definition akvcam_set_last_error (code : Z) : M unit := λ m,
  Done tt (Machine (lists m) (nodes m) (bytes m) code (deleter_calls m)).

(** The call [p->deleter(&p->data)]: the callback belongs to the caller;
    the model records that it ran, on which node and with which payload. *)
Definition call_deleter (p : Z) : M unit :=
  let* e := load_node p in
  λ m, Done tt (Machine (lists m) (nodes m) (bytes m) (last_error m)
                  (deleter_calls m ++ [DeleterCall (el_deleter e) p (el_data e)])).

(** The kernel's [memcmp]: compares byte by byte and stops at the first
    difference; a byte that is not mapped cannot be read. *)
Fixpoint memcmp_bytes (mem : gmap Z Z) (cs ct : Z) (count : nat) : option Z :=
  match count with
  | O => Some 0
  | S count' =>
      match mem !! cs, mem !! ct with
      | Some a, Some b =>
          if a - b =? 0 then memcmp_bytes mem (cs + 1) (ct + 1) count'
          else Some (a - b)
      | _, _ => None
      end
  end.

Definition memcmp (cs ct size : Z) : M Z := λ m,
  match memcmp_bytes (bytes m) cs ct (Z.to_nat size) with
  | Some r => Done r m
  | None => Fault
  end.

(** [kmemdup(src, len, GFP_KERNEL)]: [dup] is the allocator's answer
    ([NULL] on failure); on success the new block holds a copy of the
    [len] bytes at [src]. *)
Fixpoint copy_bytes (mem : gmap Z Z) (dst src : Z) (len : nat) : option (gmap Z Z) :=
  match len with
  | O => Some mem
  | S len' =>
      match mem !! src with
      | Some b => copy_bytes (<[dst := b]> mem) (dst + 1) (src + 1) len'
      | None => None
      end
  end.

Definition kmemdup (dup src len : Z) : M Z := λ m,
  if dup =? NULL then Done NULL m
  else match copy_bytes (bytes m) dup src (Z.to_nat len) with
       | Some mem' => Done dup (with_bytes (λ _, mem') m)
       | None => Fault
       end.

(** ** The list operations *)

Definition akvcam_list_size (self : Z) : M Z :=
  if self =? NULL then ret 0
  else
    let* L := load_list self in
    ret (l_size L).

Definition akvcam_list_empty (self : Z) : M bool :=
  if self =? NULL then ret true
  else
    let* L := load_list self in
    ret (l_size L <? 1).

(** The loop [for (e = 0; e < i; e++) element = element->next;]. *)
Fixpoint advance (steps : nat) (element : Z) : M Z :=
  match steps with
  | O => ret element
  | S steps' =>
      let* e := load_node element in
      advance steps' (el_next e)
  end.

(** The value returned is a [void *]: a payload handle or, on one path,
    the address of a node. *)
Definition akvcam_list_at (self i : Z) : M Z :=
  if self =? NULL then ret NULL
  else
    let* L := load_list self in
    if i >=? l_size L then ret NULL
    else if i =? 0 then
      let* h := load_node (l_head L) in
      ret (el_data h)
    else if i =? size_wrap (l_size L - 1) then ret (l_tail L)
    else
      let* element := advance (Z.to_nat i) (l_head L) in
      let* e := load_node element in
      ret (el_data e).

Definition akvcam_list_push_back (alloc : Z) (self data deleter : Z) : M bool :=
  if self =? NULL then ret false
  else
    let* element := kzalloc_element alloc in
    if element =? NULL then
      akvcam_set_last_error (- ENOMEM);;
      ret false
    else
      set_data element data;;
      set_deleter element deleter;;
      (let* L := load_list self in set_prev element (l_tail L));;
      (let* L := load_list self in set_size self (size_wrap (l_size L + 1)));;
      (let* L := load_list self in
       if negb (l_tail L =? NULL) then
         set_next (l_tail L) element;;
         set_tail self element
       else
         set_head self element;;
         set_tail self element);;
      akvcam_set_last_error 0;;
      ret true.

(** [dup] is the answer of the allocator to [kmemdup], [alloc] its answer
    to the [kzalloc] of the node. *)
Definition akvcam_list_push_back_copy (dup alloc : Z) (self data data_size deleter : Z)
    : M bool :=
  let* copy := kmemdup dup data data_size in
  akvcam_list_push_back alloc self copy deleter.

(** The out-parameters [void **data] and [akvcam_deleter_t *deleter] of
    [akvcam_list_pop] are the caller's cells: [None] stands for a [NULL]
    out-pointer (nothing is written), [Some v] for a cell that now holds
    [v]. *)
Record pop_result := PopResult {
  pop_ok : bool;
  pop_data : option Z;
  pop_deleter : option Z
}.

Definition write_out (cell : option Z) (v : Z) : option Z :=
  match cell with
  | Some _ => Some v
  | None => None
  end.

Definition akvcam_list_pop (self i : Z) (data deleter : option Z) : M pop_result :=
  let data := write_out data NULL in
  let deleter := write_out deleter NULL in
  if self =? NULL then ret (PopResult false data deleter)
  else
    let* L := load_list self in
    if (i >=? l_size L) || (l_size L <? 1) then ret (PopResult false data deleter)
    else
      let* element :=
        (if i =? 0 then ret (l_head L)
         else if i =? size_wrap (l_size L - 1) then ret (l_tail L)
         else advance (Z.to_nat i) (l_head L)) in
      let* e := load_node element in
      let data := write_out data (el_data e) in
      let deleter := write_out deleter (el_deleter e) in
      (let* e := load_node element in
       if negb (el_prev e =? NULL) then set_next (el_prev e) (el_next e)
       else set_head self (el_next e));;
      (let* e := load_node element in
       if negb (el_next e =? NULL) then set_prev (el_next e) (el_prev e)
       else set_tail self (el_prev e));;
      kfree_element element;;
      (let* L := load_list self in set_size self (size_wrap (l_size L - 1)));;
      ret (PopResult true data deleter).

(** The body of the loop of [akvcam_list_erase] once [it == element]. *)
Definition erase_found (it : Z) : M unit :=
  (let* e := load_node it in
   if negb (el_data e =? NULL) && negb (el_deleter e =? NULL)
   then call_deleter it else ret tt);;
  (let* e := load_node it in
   if negb (el_prev e =? NULL) then set_next (el_prev e) (el_next e) else ret tt);;
  (let* e := load_node it in
   if negb (el_next e =? NULL) then set_prev (el_next e) (el_prev e) else ret tt);;
  kfree_element it.

(** [for (it = self->head; it != NULL; it = it->next)]: the loop has no
    bound of its own, so the model takes fuel. *)
Fixpoint erase_loop (fuel : nat) (it element : Z) : M unit :=
  match fuel with
  | O => out_of_fuel
  | S fuel' =>
      if it =? NULL then ret tt
      else if it =? element then erase_found it
      else
        let* e := load_node it in
        erase_loop fuel' (el_next e) element
  end.

Definition akvcam_list_erase (fuel : nat) (self element : Z) : M unit :=
  let* L := load_list self in
  erase_loop fuel (l_head L) element.

(** [while (element) { ... }] of [akvcam_list_clear]. *)
Fixpoint clear_loop (fuel : nat) (element : Z) : M unit :=
  match fuel with
  | O => out_of_fuel
  | S fuel' =>
      if element =? NULL then ret tt
      else
        (let* e := load_node element in
         if negb (el_data e =? NULL) && negb (el_deleter e =? NULL)
         then call_deleter element else ret tt);;
        let* e := load_node element in
        let next := el_next e in
        kfree_element element;;
        clear_loop fuel' next
  end.

(** [memset(self, 0, sizeof(struct akvcam_list))] zeroes the four fields
    of the header. *)
Definition akvcam_list_clear (fuel : nat) (self : Z) : M unit :=
  if self =? NULL then ret tt
  else
    let* L := load_list self in
    clear_loop fuel (l_head L);;
    store_list self (List 0 0 0 0).

(** The equality callback [akvcam_are_equals_t]: a function of the
    payload memory and of its three arguments; [None] is a [NULL]
    callback. *)
Definition akvcam_are_equals_t : Type := gmap Z Z → Z → Z → Z → bool.

(** The test [equals] on the function pointer. *)
Definition given (equals : option akvcam_are_equals_t) : bool :=
  match equals with
  | Some _ => true
  | None => false
  end.

(** The loop [for (i = 0; i < (ssize_t) self->size - 1; i++)] of
    [akvcam_list_find]. *)
Fixpoint find_loop (steps : nat) (element data size : Z)
    (equals : option akvcam_are_equals_t) : M Z :=
  match steps with
  | O => ret NULL
  | S steps' =>
      let* e := load_node element in
      let* hit :=
        match equals with
        | Some eq => λ m, Done (eq (bytes m) (el_data e) data size) m
        | None =>
            let* c := memcmp (el_data e) data size in
            ret (c =? 0)
        end in
      if (hit : bool) then ret element
      else
        let* e := load_node element in
        find_loop steps' (el_next e) data size equals
  end.

Definition akvcam_list_find (self data size : Z) (equals : option akvcam_are_equals_t)
    : M Z :=
  if self =? NULL then ret NULL
  else
    let* L := load_list self in
    if (l_size L <? 1) || negb (negb (size =? 0) || given equals)
    then ret NULL
    else
      let* t := load_node (l_tail L) in
      let* c := memcmp (el_data t) data size in
      if c =? 0 then ret (l_tail L)
      else
        find_loop (Z.to_nat (to_ssize (l_size L) - 1)) (l_head L) data size equals.

(** [akvcam_list_next]: [element] is the caller's cursor cell ([None] for
    a [NULL] pointer to it); the result is the returned payload and the
    new content of the cell. *)
Definition akvcam_list_next (self : Z) (element : option Z) : M (Z * option Z) :=
  match element with
  | None => ret (NULL, None)
  | Some cur =>
      if self =? NULL then ret (NULL, Some cur)
      else if negb (cur =? NULL) then
        let* c := load_node cur in
        let cur' := el_next c in
        if negb (cur' =? NULL) then
          let* n := load_node cur' in
          ret (el_data n, Some cur')
        else ret (NULL, Some cur')
      else
        let* L := load_list self in
        if negb (l_head L =? NULL) then
          let* h := load_node (l_head L) in
          ret (el_data h, Some (l_head L))
        else ret (NULL, Some (l_head L))
  end.

(** ** The abstract content of a list *)

(** An element as the caller sees it: the node that carries it, its
    payload handle and its deleter. *)
Record item := Item {
  it_node : Z;
  it_data : Z;
  it_deleter : Z
}.

(** [dlseg h prv cur l lst nxt]: in the node heap [h], the chain that
    starts at [cur] (whose predecessor is [prv]) carries exactly the
    items [l], its last node is [lst] and the [next] of that node is
    [nxt]. *)
Fixpoint dlseg (h : gmap Z akvcam_list_element) (prv cur : Z) (l : list item)
    (lst nxt : Z) : Prop :=
  match l with
  | [] => cur = nxt ∧ lst = prv
  | x :: l' =>
      cur = it_node x ∧ cur ≠ NULL ∧
      ∃ n, h !! cur = Some (Element (it_data x) (it_deleter x) prv n) ∧
           dlseg h cur n l' lst nxt
  end.

(** The header at [self] and the nodes of [m] represent the sequence [l].
    A node takes 32 bytes of a 64-bit address space, so the count stays
    below 2^63. *)
Definition list_repr (m : machine) (self : Z) (l : list item) : Prop :=
  self ≠ NULL ∧
  ∃ L, lists m !! self = Some L ∧
       l_size L = Z.of_nat (length l) ∧
       Z.of_nat (length l) < 2 ^ 63 ∧
       dlseg (nodes m) NULL (l_head L) l (l_tail L) NULL ∧
       NoDup (it_node <$> l).

(** *** Deleter calls *)

(** [akvcam_list_clear] and [akvcam_list_erase] run the deleter of an
    element under the guard [data && deleter]. *)
Definition owns_payload (x : item) : bool :=
  negb (it_data x =? NULL) && negb (it_deleter x =? NULL).

Definition deleter_call_of (x : item) : list deleter_call :=
  if owns_payload x then [DeleterCall (it_deleter x) (it_node x) (it_data x)] else [].

Definition clear_calls (l : list item) : list deleter_call :=
  l ≫= deleter_call_of.

(** How many times a deleter ran on the node [a] in a trace. *)
Definition calls_on (a : Z) (calls : list deleter_call) : nat :=
  length (filter (λ c, dc_node c = a) calls).

(** *** find, as the specification words it *)

(** The comparison applied to a scanned element: the predicate if one is
    supplied, byte equality over [size] bytes otherwise.  [None] is a
    read of a byte that is not mapped. *)
Definition payload_test (mem : gmap Z Z) (equals : option akvcam_are_equals_t)
    (candidate data size : Z) : option bool :=
  match equals with
  | Some eq => Some (eq mem candidate data size)
  | None => (λ c, c =? 0) <$> memcmp_bytes mem candidate data (Z.to_nat size)
  end.

(** First element of [l], in order, that passes the test; [NULL] if none. *)
Fixpoint first_match (mem : gmap Z Z) (equals : option akvcam_are_equals_t)
    (data size : Z) (l : list item) : option Z :=
  match l with
  | [] => Some NULL
  | x :: l' =>
      match payload_test mem equals (it_data x) data size with
      | Some true => Some (it_node x)
      | Some false => first_match mem equals data size l'
      | None => None
      end
  end.

(** The search as the specification describes it, on the sequence of
    items: "not found" for an empty list or when neither a length nor a
    predicate is given; otherwise the tail first, by byte compare
    whatever the predicate, then positions 0 to size-2 from the head. *)
Definition find_spec (mem : gmap Z Z) (l : list item) (data size : Z)
    (equals : option akvcam_are_equals_t) : option Z :=
  match last l with
  | None => Some NULL
  | Some t =>
      if (size =? 0) && negb (given equals) then Some NULL
      else
        match memcmp_bytes mem (it_data t) data (Z.to_nat size) with
        | Some c =>
            if c =? 0 then Some (it_node t)
            else first_match mem equals data size (removelast l)
        | None => None
        end
  end.

Definition outcome_of {A} (r : option A) (m : machine) : outcome A :=
  match r with
  | Some a => Done a m
  | None => Fault
  end.

(** The value a call returned, if it returned. *)
Definition returned {A} (o : outcome A) : option A :=
  match o with
  | Done a _ => Some a
  | _ => None
  end.

(** *** The structural invariants, as a check on the memory *)

(** [walk field h steps p]: follow [field] from [p] [steps] times; there
    is no step from [NULL] or from a node that is not live. *)
Fixpoint walk (field : akvcam_list_element → Z) (h : gmap Z akvcam_list_element)
    (steps : nat) (p : Z) : option Z :=
  match steps with
  | O => Some p
  | S steps' =>
      if p =? NULL then None
      else match h !! p with
           | Some e => walk field h steps' (field e)
           | None => None
           end
  end.

Definition reaches (r : option Z) (q : Z) : bool :=
  match r with
  | Some p => p =? q
  | None => false
  end.

(** [size == 0] iff [head] and [tail] are null; walking [next] from
    [head] is on [tail] at the last node and on the terminator after
    [size] steps; walking [prev] from [tail] is on [head] at the first
    node and on the terminator after [size] steps. *)
Definition structural_invariant (m : machine) (self : Z) : bool :=
  match lists m !! self with
  | None => false
  | Some L =>
      let n := Z.to_nat (l_size L) in
      Bool.eqb (l_size L =? 0) ((l_head L =? NULL) && (l_tail L =? NULL))
      && reaches (walk el_next (nodes m) (Nat.pred n) (l_head L)) (l_tail L)
      && reaches (walk el_next (nodes m) n (l_head L)) NULL
      && reaches (walk el_prev (nodes m) (Nat.pred n) (l_tail L)) (l_head L)
      && reaches (walk el_prev (nodes m) n (l_tail L)) NULL
  end.

(** *** A sample memory *)

(** A list of three elements at address 1000: the payload of the first
    has no deleter, the second holds a null payload with a deleter, the
    third a payload with a deleter.  The last-error slot holds a stale
    value. *)
Definition sample_items : list item :=
  [Item 100 700 0; Item 200 0 9; Item 300 800 9].

Definition sample : machine :=
  Machine
    {[1000 := List 77 3 100 300]}
    (<[100 := Element 700 0 0 200]>
       (<[200 := Element 0 9 100 300]>
          {[300 := Element 800 9 200 0]}))
    (<[700 := 1]> (<[800 := 2]> {[900 := 2]}))
    5
    [].

(** A predicate for [akvcam_list_find] that accepts nothing. *)
Definition never_equal : akvcam_are_equals_t := λ _ _ _ _, false.

(** ** Construction and destruction *)

(** [kzalloc(sizeof(struct akvcam_list), GFP_KERNEL)] and [kfree] of a
    header, with the allocator's answer as an input. *)
Definition kzalloc_list (alloc : Z) : M Z := λ m,
  if alloc =? NULL then Done NULL m
  else Done alloc (with_lists (insert alloc (List 0 0 0 0)) m).

Definition kfree_list (p : Z) : M unit := λ m,
  if p =? NULL then Done tt m
  else match lists m !! p with
       | Some _ => Done tt (with_lists (delete p) m)
       | None => Fault
       end.

Definition set_self (p v : Z) : M unit :=
  let* L := load_list p in
  store_list p (List v (l_size L) (l_head L) (l_tail L)).

(** [akvcam_list_new].  The reference-counting object belongs to a
    collaborator: [object] is the answer of [akvcam_object_new] ([NULL]
    when it fails).  On the failure path [akvcam_object_free] is handed
    the handle cell of a header that is freed by the next statement. *)
Definition akvcam_list_new (alloc object : Z) : M Z :=
  let* self := kzalloc_list alloc in
  if self =? NULL then
    akvcam_set_last_error (- ENOMEM);;
    ret NULL
  else
    set_self self object;;
    let* L := load_list self in
    if l_self L =? NULL then
      kfree_list self;;
      ret NULL
    else ret self.

(** [akvcam_list_delete].  [self] is the caller's cell that holds the
    list pointer ([None] for a [NULL] pointer to it).  [remaining] is the
    count that [akvcam_object_unref] returns.  The result is the new
    content of the cell and the object handles that were handed to
    [akvcam_object_free], read at the time of the call. *)
Definition akvcam_list_delete (remaining : Z) (fuel : nat) (self : option Z)
    : M (option Z * list Z) :=
  match self with
  | None => ret (None, [])
  | Some p =>
      if p =? NULL then ret (Some p, [])
      else
        let* L := load_list p in
        if remaining >? 0 then ret (Some p, [])
        else
          akvcam_list_clear fuel p;;
          let* L' := load_list p in
          kfree_list p;;
          ret (Some NULL, [l_self L'])
  end.

(** ** Sequences of calls *)

(** One [akvcam_list_push_back] per request, in order; the [it_node] of a
    request is the allocator's answer for it. *)
Fixpoint push_back_each (reqs : list item) (self : Z) : M (list bool) :=
  match reqs with
  | [] => ret []
  | r :: reqs' =>
      let* ok := akvcam_list_push_back (it_node r) self (it_data r) (it_deleter r) in
      let* oks := push_back_each reqs' self in
      ret (ok :: oks)
  end.

(** [calls] consecutive calls of [akvcam_list_next] on one cursor cell:
    the values returned, in order, and the final content of the cell. *)
Fixpoint next_times (calls : nat) (self cursor : Z) : M (list Z * Z) :=
  match calls with
  | O => ret ([], cursor)
  | S calls' =>
      let* r := akvcam_list_next self (Some cursor) in
      let* rest := next_times calls' self (default NULL (snd r)) in
      ret (fst r :: fst rest, snd rest)
  end.

(** A computation that returns leaves the memory as it found it. *)
Definition read_only {A} (c : M A) : Prop :=
  ∀ m a m', c m = Done a m' → m' = m.

(** A computation that returns leaves the address [b] free of nodes if
    it was. *)
Definition keeps_free (b : Z) {A} (c : M A) : Prop :=
  ∀ m a m', c m = Done a m' → nodes m !! b = None → nodes m' !! b = None.

(** The requests whose node allocation succeeds. *)
Definition allocated (reqs : list item) : list item :=
  filter (λ r, it_node r ≠ NULL) reqs.

(** A second sample: two elements, the tail with a null payload. *)
Definition sample_null_tail_items : list item :=
  [Item 100 700 0; Item 200 0 9].

Definition sample_null_tail : machine :=
  Machine
    {[1000 := List 77 2 100 200]}
    (<[100 := Element 700 0 0 200]> {[200 := Element 0 9 100 0]})
    (<[700 := 1]> {[900 := 2]})
    0
    [].

(** * Properties *)

(** ** Running the primitives *)

Section Primitives.
Variable m : machine.

Lemma bind_done {A B} (c : M A) (k : A → M B) a m' :
  c m = Done a m' → bind c k m = k a m'.
Proof. intros H. unfold bind. by rewrite H. Qed.

Lemma load_list_done p L :
  p ≠ NULL → lists m !! p = Some L → load_list p m = Done L m.
Proof.
  intros Hp HL. unfold load_list.
  destruct (Z.eqb_spec p NULL); [done|]. by rewrite HL.
Qed.

Lemma store_list_done p L L' :
  p ≠ NULL → lists m !! p = Some L →
  store_list p L' m = Done tt (with_lists (insert p L') m).
Proof.
  intros Hp HL. unfold store_list.
  destruct (Z.eqb_spec p NULL); [done|]. by rewrite HL.
Qed.

Lemma load_node_done p e :
  p ≠ NULL → nodes m !! p = Some e → load_node p m = Done e m.
Proof.
  intros Hp He. unfold load_node.
  destruct (Z.eqb_spec p NULL); [done|]. by rewrite He.
Qed.

Lemma store_node_done p e e' :
  p ≠ NULL → nodes m !! p = Some e →
  store_node p e' m = Done tt (with_nodes (insert p e') m).
Proof.
  intros Hp He. unfold store_node.
  destruct (Z.eqb_spec p NULL); [done|]. by rewrite He.
Qed.

Lemma set_next_done p e v :
  p ≠ NULL → nodes m !! p = Some e →
  set_next p v m
  = Done tt (with_nodes (insert p (Element (el_data e) (el_deleter e) (el_prev e) v)) m).
Proof.
  intros Hp He. unfold set_next.
  rewrite (bind_done _ _ _ _ (load_node_done _ _ Hp He)).
  by apply store_node_done with e.
Qed.

Lemma set_prev_done p e v :
  p ≠ NULL → nodes m !! p = Some e →
  set_prev p v m
  = Done tt (with_nodes (insert p (Element (el_data e) (el_deleter e) v (el_next e))) m).
Proof.
  intros Hp He. unfold set_prev.
  rewrite (bind_done _ _ _ _ (load_node_done _ _ Hp He)).
  by apply store_node_done with e.
Qed.

Lemma set_size_done p L v :
  p ≠ NULL → lists m !! p = Some L →
  set_size p v m
  = Done tt (with_lists (insert p (List (l_self L) v (l_head L) (l_tail L))) m).
Proof.
  intros Hp HL. unfold set_size.
  rewrite (bind_done _ _ _ _ (load_list_done _ _ Hp HL)).
  by apply store_list_done with L.
Qed.

Lemma set_head_done p L v :
  p ≠ NULL → lists m !! p = Some L →
  set_head p v m
  = Done tt (with_lists (insert p (List (l_self L) (l_size L) v (l_tail L))) m).
Proof.
  intros Hp HL. unfold set_head.
  rewrite (bind_done _ _ _ _ (load_list_done _ _ Hp HL)).
  by apply store_list_done with L.
Qed.

Lemma set_tail_done p L v :
  p ≠ NULL → lists m !! p = Some L →
  set_tail p v m
  = Done tt (with_lists (insert p (List (l_self L) (l_size L) (l_head L) v)) m).
Proof.
  intros Hp HL. unfold set_tail.
  rewrite (bind_done _ _ _ _ (load_list_done _ _ Hp HL)).
  by apply store_list_done with L.
Qed.

Lemma kfree_element_done p e :
  p ≠ NULL → nodes m !! p = Some e →
  kfree_element p m = Done tt (with_nodes (delete p) m).
Proof.
  intros Hp He. unfold kfree_element.
  destruct (Z.eqb_spec p NULL); [done|]. by rewrite He.
Qed.
End Primitives.

(** ** Segments of the chain *)

Section Segments.
Implicit Types (h : gmap Z akvcam_list_element) (l : list item).

Lemma dlseg_app h prv cur l1 l2 lst nxt :
  dlseg h prv cur (l1 ++ l2) lst nxt ↔
  ∃ mid_last mid, dlseg h prv cur l1 mid_last mid ∧ dlseg h mid_last mid l2 lst nxt.
Proof.
  revert prv cur. induction l1 as [|x l1 IH]; intros prv cur; simpl.
  - split.
    + intros H. exists prv, cur. done.
    + intros (ml & md & [-> ->] & H). done.
  - split.
    + intros (Hc & Hn & n & Hlk & Hseg).
      apply IH in Hseg as (ml & md & H1 & H2).
      exists ml, md. split; [|done]. eauto 10.
    + intros (ml & md & (Hc & Hn & n & Hlk & H1) & H2).
      split; [done|]. split; [done|]. exists n. split; [done|].
      apply IH. eauto.
Qed.

(** A segment only depends on the nodes it goes through. *)
Lemma dlseg_ext h h' prv cur l lst nxt :
  (∀ a, a ∈ it_node <$> l → h' !! a = h !! a) →
  dlseg h prv cur l lst nxt → dlseg h' prv cur l lst nxt.
Proof.
  revert prv cur. induction l as [|x l IH]; intros prv cur Hag; simpl; [done|].
  intros (Hc & Hn & n & Hlk & Hseg).
  split; [done|]. split; [done|]. exists n. split.
  - rewrite Hag; [done|]. subst cur. simpl. left.
  - apply IH; [|done]. intros a Ha. apply Hag. simpl. by right.
Qed.

Lemma dlseg_nodes_nonnull h prv cur l lst nxt :
  dlseg h prv cur l lst nxt → ∀ a, a ∈ it_node <$> l → a ≠ NULL.
Proof.
  revert prv cur. induction l as [|x l IH]; intros prv cur; simpl.
  - intros _ a Ha. by apply elem_of_nil in Ha.
  - intros (Hc & Hn & n & Hlk & Hseg) a Ha.
    apply elem_of_cons in Ha as [->|Ha]; [by subst cur|]. eauto.
Qed.

Lemma dlseg_lookup h prv cur l lst nxt x :
  dlseg h prv cur l lst nxt → x ∈ l →
  ∃ p n, h !! it_node x = Some (Element (it_data x) (it_deleter x) p n).
Proof.
  revert prv cur. induction l as [|y l IH]; intros prv cur; simpl.
  - intros _ Hx. by apply elem_of_nil in Hx.
  - intros (Hc & Hn & n & Hlk & Hseg) Hx.
    apply elem_of_cons in Hx as [->|Hx]; [subst cur; eauto|]. eauto.
Qed.

(** The last pointer of a non-empty segment is its last node; the one
    of an empty segment is the predecessor. *)
Lemma dlseg_snoc h prv cur l x lst nxt :
  dlseg h prv cur (l ++ [x]) lst nxt ↔
  ∃ p, dlseg h prv cur l p (it_node x) ∧ it_node x ≠ NULL ∧ lst = it_node x ∧
       h !! it_node x = Some (Element (it_data x) (it_deleter x) p nxt).
Proof.
  rewrite dlseg_app. simpl. split.
  - intros (ml & md & H1 & -> & Hn & n & Hlk & -> & ->). eauto 10.
  - intros (p & H1 & Hn & -> & Hlk). exists p, (it_node x). eauto 10.
Qed.

Lemma dlseg_last_null h prv cur l lst nxt :
  dlseg h prv cur l lst nxt → prv = NULL → (lst = NULL ↔ l = []).
Proof.
  intros Hseg ->. destruct l as [|x l _] using rev_ind.
  - simpl in Hseg. destruct Hseg as [_ ->]. done.
  - apply dlseg_snoc in Hseg as (p & _ & Hn & -> & _).
    split; [done|]. intros H. by destruct l.
Qed.

Lemma dlseg_first_null h prv cur l lst nxt :
  dlseg h prv cur l lst nxt → nxt = NULL → (cur = NULL ↔ l = []).
Proof.
  intros Hseg ->. destruct l as [|x l]; simpl in Hseg.
  - destruct Hseg as [-> _]. done.
  - destruct Hseg as (_ & Hn & _). done.
Qed.

(** Walking [next] along a segment. *)
Lemma advance_dlseg m prv cur l lst nxt :
  dlseg (nodes m) prv cur l lst nxt →
  advance (length l) cur m = Done nxt m.
Proof.
  revert prv cur. induction l as [|x l IH]; intros prv cur; simpl.
  - by intros [-> _].
  - intros (Hc & Hn & n & Hlk & Hseg).
    rewrite (bind_done _ _ _ _ _ (load_node_done _ _ _ Hn Hlk)). simpl. eauto.
Qed.
End Segments.

Section Relink.
Implicit Types (h : gmap Z akvcam_list_element) (l : list item).

Lemma dlseg_set_exit h prv cur l lst nxt :
  dlseg h prv cur l lst nxt → l ≠ [] → NoDup (it_node <$> l) →
  lst ≠ NULL ∧
  ∃ e, h !! lst = Some e ∧ el_next e = nxt ∧
       ∀ n, dlseg (<[lst := Element (el_data e) (el_deleter e) (el_prev e) n]> h)
              prv cur l lst n.
Proof.
  intros Hseg Hne Hnd. destruct l as [|y l _] using rev_ind; [done|].
  apply dlseg_snoc in Hseg as (p & Hseg & Hn & -> & Hlk).
  split; [done|]. eexists. split; [exact Hlk|]. split; [done|].
  intros n. apply dlseg_snoc. exists p. simpl.
  rewrite lookup_insert_eq. split_and!; try done.
  eapply dlseg_ext; [|exact Hseg].
  intros a Ha. rewrite lookup_insert_ne; [done|].
  intros <-. rewrite fmap_app in Hnd. apply NoDup_app in Hnd as (_ & Hnd & _).
  apply (Hnd _ Ha). simpl. left.
Qed.

Lemma dlseg_set_entry h prv cur l lst nxt :
  dlseg h prv cur l lst nxt → l ≠ [] → NoDup (it_node <$> l) →
  cur ≠ NULL ∧
  ∃ e, h !! cur = Some e ∧ el_prev e = prv ∧
       ∀ q, dlseg (<[cur := Element (el_data e) (el_deleter e) q (el_next e)]> h)
              q cur l lst nxt.
Proof.
  intros Hseg Hne Hnd. destruct l as [|z l]; [done|]. simpl in Hseg.
  destruct Hseg as (Hc & Hn & n & Hlk & Hseg).
  split; [done|]. eexists. split; [exact Hlk|]. split; [done|].
  intros q. simpl. split; [done|]. split; [done|]. exists n.
  rewrite lookup_insert_eq. split; [done|].
  eapply dlseg_ext; [|exact Hseg].
  intros a Ha. rewrite lookup_insert_ne; [done|].
  intros <-. simpl in Hnd. apply NoDup_cons in Hnd as [Hnd _]. subst cur. done.
Qed.

Lemma dlseg_first_in h prv cur l lst nxt :
  dlseg h prv cur l lst nxt → l ≠ [] → cur ∈ it_node <$> l.
Proof.
  destruct l as [|z l]; [done|]. simpl. intros (-> & _) _. left.
Qed.

Lemma dlseg_last_in h prv cur l lst nxt :
  dlseg h prv cur l lst nxt → l ≠ [] → lst ∈ it_node <$> l.
Proof.
  destruct l as [|y l _] using rev_ind; [done|].
  intros (p & _ & _ & -> & _)%dlseg_snoc _.
  rewrite fmap_app. apply elem_of_app. right. simpl. left.
Qed.
End Relink.

(** ** The operations on a well-formed list *)

(** Run the first command of a sequence with the equation [lem]. *)
Ltac exec_by lem := erewrite bind_done; [| eapply lem; try eassumption; try done].

(** *** pop *)

Lemma size_wrap_small z : 0 ≤ z < 2 ^ 64 → size_wrap z = z.
Proof. intros H. unfold size_wrap. by apply Z.mod_small. Qed.

Lemma write_out_twice cell v w : write_out (write_out cell v) w = write_out cell w.
Proof. by destruct cell. Qed.

Lemma NoDup_middle (l1 l2 : list item) x :
  NoDup (it_node <$> (l1 ++ x :: l2)) →
  (it_node x ∉ it_node <$> l1) ∧ (it_node x ∉ it_node <$> l2) ∧
  NoDup (it_node <$> l1) ∧ NoDup (it_node <$> l2) ∧
  NoDup (it_node <$> (l1 ++ l2)) ∧
  (∀ a, a ∈ it_node <$> l1 → a ∉ it_node <$> l2).
Proof.
  rewrite !fmap_app, fmap_cons. intros H.
  apply NoDup_app in H as (H1 & H12 & H2).
  apply NoDup_cons in H2 as (Hx & H2).
  split_and!; try done.
  - intros Hin. apply (H12 _ Hin). left.
  - apply NoDup_app. split_and!; try done.
    intros a Ha Ha2. apply (H12 _ Ha). by right.
  - intros a Ha Ha2. apply (H12 _ Ha). by right.
Qed.

Lemma akvcam_list_pop_member m self l1 x l2 data deleter :
  list_repr m self (l1 ++ x :: l2) →
  ∃ m', akvcam_list_pop self (Z.of_nat (length l1)) data deleter m
        = Done (PopResult true (write_out data (it_data x))
                  (write_out deleter (it_deleter x))) m'
      ∧ list_repr m' self (l1 ++ l2)
      ∧ nodes m' !! it_node x = None
      ∧ deleter_calls m' = deleter_calls m
      ∧ last_error m' = last_error m.
Proof.
  intros (Hself & L & HL & Hsz & Hbound & Hseg & Hnd).
  apply NoDup_middle in Hnd as (Hx1 & Hx2 & Hnd1 & Hnd2 & Hnd12 & Hdisj).
  apply dlseg_app in Hseg as (p & a & H1 & H2). simpl in H2.
  destruct H2 as (-> & Ha & n & Hlk & H2).
  rewrite length_app in Hsz, Hbound. simpl in Hsz, Hbound.
  unfold akvcam_list_pop.
  destruct (Z.eqb_spec self NULL) as [|_]; [done|].
  exec_by load_list_done.
  assert ((Z.of_nat (length l1) >=? l_size L) || (l_size L <? 1) = false) as ->.
  { apply orb_false_intro; [rewrite Z.geb_leb; apply Z.leb_gt|apply Z.ltb_ge]; lia. }
  (* the three ways to reach the node *)
  assert ((if Z.of_nat (length l1) =? 0 then ret (l_head L)
           else if Z.of_nat (length l1) =? size_wrap (l_size L - 1) then ret (l_tail L)
           else advance (Z.to_nat (Z.of_nat (length l1))) (l_head L)) m
          = Done (it_node x) m) as Hel.
  { destruct (Z.eqb_spec (Z.of_nat (length l1)) 0) as [E0|_].
    - destruct l1; [|simpl in E0; lia]. simpl in H1. by destruct H1 as [-> _].
    - rewrite size_wrap_small by lia.
      destruct (Z.eqb_spec (Z.of_nat (length l1)) (l_size L - 1)) as [E1|_].
      + destruct l2; [|simpl in Hsz; lia]. simpl in H2. by destruct H2 as [_ ->].
      + rewrite Nat2Z.id. eapply advance_dlseg. exact H1. }
  exec_by Hel.
  exec_by load_node_done. simpl.
  (* the predecessor's side *)
  assert (∃ m1 L1,
    bind (load_node (it_node x)) (λ e,
       if negb (el_prev e =? NULL) then set_next (el_prev e) (el_next e)
       else set_head self (el_next e)) m = Done tt m1 ∧
    lists m1 !! self = Some L1 ∧ l_size L1 = l_size L ∧ l_tail L1 = l_tail L ∧
    dlseg (nodes m1) NULL (l_head L1) l1 p n ∧
    nodes m1 !! it_node x = Some (Element (it_data x) (it_deleter x) p n) ∧
    dlseg (nodes m1) (it_node x) n l2 (l_tail L) NULL ∧
    deleter_calls m1 = deleter_calls m ∧ last_error m1 = last_error m)
    as (m1 & L1 & Hrun1 & HL1 & Hsz1 & Htl1 & H11 & Hlk1 & H21 & Hdc1 & Hle1).
  { exec_by load_node_done. simpl.
    destruct (decide (l1 = [])) as [->|Hne].
    - simpl in H1. destruct H1 as [Hh ->]. simpl.
      eexists _, _. split; [by eapply set_head_done|]. simpl.
      rewrite lookup_insert_eq. split_and!; try done.
    - destruct (dlseg_set_exit _ _ _ _ _ _ H1 Hne Hnd1) as (Hp & e & Hlkp & Hnx & Hupd).
      destruct (Z.eqb_spec p NULL) as [|_]; [done|]. simpl.
      eexists _, L. split; [by eapply set_next_done|]. simpl.
      assert (p ≠ it_node x) as Hpx.
      { intros ->. apply Hx1. eapply dlseg_last_in; eauto. }
      split_and!; try done.
      + by rewrite lookup_insert_ne.
      + eapply dlseg_ext; [|exact H2]. intros b Hb.
        rewrite lookup_insert_ne; [done|]. intros <-.
        eapply Hdisj; [|exact Hb]. eapply dlseg_last_in; eauto. }
  exec_by Hrun1.
  (* the successor's side *)
  assert (∃ m2 L2,
    bind (load_node (it_node x)) (λ e,
       if negb (el_next e =? NULL) then set_prev (el_next e) (el_prev e)
       else set_tail self (el_prev e)) m1 = Done tt m2 ∧
    lists m2 !! self = Some L2 ∧ l_size L2 = l_size L ∧
    dlseg (nodes m2) NULL (l_head L2) l1 p n ∧
    nodes m2 !! it_node x = Some (Element (it_data x) (it_deleter x) p n) ∧
    dlseg (nodes m2) p n l2 (l_tail L2) NULL ∧
    deleter_calls m2 = deleter_calls m ∧ last_error m2 = last_error m)
    as (m2 & L2 & Hrun2 & HL2 & Hsz2 & H12 & Hlk2 & H22 & Hdc2 & Hle2).
  { exec_by load_node_done. simpl.
    destruct (decide (l2 = [])) as [->|Hne].
    - simpl in H21. destruct H21 as [-> Htl]. simpl.
      eexists _, _. split; [by eapply set_tail_done|]. simpl.
      rewrite lookup_insert_eq. split_and!; try done.
    - destruct (dlseg_set_entry _ _ _ _ _ _ H21 Hne Hnd2) as (Hn & e & Hlkn & Hpv & Hupd).
      destruct (Z.eqb_spec n NULL) as [|_]; [done|]. simpl.
      eexists _, L1. split; [by eapply set_prev_done|]. simpl.
      assert (n ≠ it_node x) as Hnx.
      { intros ->. apply Hx2. eapply dlseg_first_in; eauto. }
      split_and!; try done.
      + eapply dlseg_ext; [|exact H11]. intros b Hb.
        rewrite lookup_insert_ne; [done|]. intros <-.
        eapply Hdisj; [exact Hb|]. eapply dlseg_first_in; eauto.
      + by rewrite lookup_insert_ne.
      + rewrite Htl1 in *. apply Hupd. }
  exec_by Hrun2.
  exec_by kfree_element_done.
  erewrite bind_done; cycle 1.
  { exec_by load_list_done. eapply set_size_done; [done|]. simpl. eassumption. }
  rewrite !write_out_twice.
  eexists. split; [reflexivity|]. simpl.
  rewrite lookup_delete_eq. split_and!; try done.
  split; [done|]. eexists. simpl. rewrite lookup_insert_eq. split; [done|]. simpl.
  rewrite length_app, Hsz2, Hsz.
  rewrite size_wrap_small by lia.
  split_and!; try lia; try done.
  apply dlseg_app. exists p, n. split.
  - eapply dlseg_ext; [|exact H12]. intros b Hb.
    rewrite lookup_delete_ne; [done|]. by intros <-.
  - eapply dlseg_ext; [|exact H22]. intros b Hb.
    rewrite lookup_delete_ne; [done|]. by intros <-.
Qed.

Lemma akvcam_list_pop_null m i data deleter :
  akvcam_list_pop NULL i data deleter m
  = Done (PopResult false (write_out data NULL) (write_out deleter NULL)) m.
Proof. reflexivity. Qed.

Lemma akvcam_list_pop_out_of_range m self l i data deleter :
  list_repr m self l → Z.of_nat (length l) ≤ i →
  akvcam_list_pop self i data deleter m
  = Done (PopResult false (write_out data NULL) (write_out deleter NULL)) m.
Proof.
  intros (Hself & L & HL & Hsz & _) Hi. unfold akvcam_list_pop.
  destruct (Z.eqb_spec self NULL) as [|_]; [done|].
  exec_by load_list_done.
  assert ((i >=? l_size L) = true) as ->; [|done].
  rewrite Z.geb_leb. apply Z.leb_le. lia.
Qed.

Lemma akvcam_list_size_repr m self l :
  list_repr m self l → akvcam_list_size self m = Done (Z.of_nat (length l)) m.
Proof.
  intros (Hself & L & HL & Hsz & _). unfold akvcam_list_size.
  destruct (Z.eqb_spec self NULL) as [|_]; [done|].
  exec_by load_list_done. by rewrite Hsz.
Qed.

(** *** at *)

Lemma akvcam_list_at_member m self l1 x l2 :
  list_repr m self (l1 ++ x :: l2) →
  akvcam_list_at self (Z.of_nat (length l1)) m
  = Done (match l1, l2 with
          | _ :: _, [] => it_node x
          | _, _ => it_data x
          end) m.
Proof.
  intros (Hself & L & HL & Hsz & Hbound & Hseg & Hnd).
  apply dlseg_app in Hseg as (p & a & H1 & H2). simpl in H2.
  destruct H2 as (-> & Ha & n & Hlk & H2).
  rewrite length_app in Hsz, Hbound. simpl in Hsz, Hbound.
  unfold akvcam_list_at.
  destruct (Z.eqb_spec self NULL) as [|_]; [done|].
  exec_by load_list_done.
  assert ((Z.of_nat (length l1) >=? l_size L) = false) as ->.
  { rewrite Z.geb_leb. apply Z.leb_gt. lia. }
  destruct (Z.eqb_spec (Z.of_nat (length l1)) 0) as [E0|N0].
  - destruct l1; [|simpl in E0; lia]. simpl in H1. destruct H1 as [Hh _].
    rewrite Hh. by exec_by load_node_done.
  - rewrite size_wrap_small by lia.
    destruct (Z.eqb_spec (Z.of_nat (length l1)) (l_size L - 1)) as [E1|N1].
    + destruct l2; [|simpl in Hsz; lia]. simpl in H2. destruct H2 as [_ ->].
      by destruct l1.
    + rewrite Nat2Z.id. exec_by advance_dlseg. exec_by load_node_done. simpl.
      destruct l1; [done|]. destruct l2; [|done]. simpl in Hsz, N1. lia.
Qed.

Lemma akvcam_list_at_out_of_range m self l i :
  list_repr m self l → Z.of_nat (length l) ≤ i →
  akvcam_list_at self i m = Done NULL m.
Proof.
  intros (Hself & L & HL & Hsz & _) Hi. unfold akvcam_list_at.
  destruct (Z.eqb_spec self NULL) as [|_]; [done|].
  exec_by load_list_done.
  assert ((i >=? l_size L) = true) as ->; [|done].
  rewrite Z.geb_leb. apply Z.leb_le. lia.
Qed.

(** *** push_back *)

Lemma akvcam_list_push_back_null m alloc data deleter :
  akvcam_list_push_back alloc NULL data deleter m = Done false m.
Proof. reflexivity. Qed.

Lemma akvcam_list_push_back_enomem m self data deleter :
  self ≠ NULL →
  akvcam_list_push_back NULL self data deleter m
  = Done false (Machine (lists m) (nodes m) (bytes m) (- ENOMEM) (deleter_calls m)).
Proof.
  intros Hself. unfold akvcam_list_push_back.
  destruct (Z.eqb_spec self NULL) as [|_]; [done|]. reflexivity.
Qed.

Lemma akvcam_list_push_back_done m self l alloc data deleter :
  list_repr m self l →
  alloc ≠ NULL → nodes m !! alloc = None →
  Z.of_nat (length l) + 1 < 2 ^ 63 →
  ∃ m', akvcam_list_push_back alloc self data deleter m = Done true m'
      ∧ list_repr m' self (l ++ [Item alloc data deleter])
      ∧ last_error m' = 0
      ∧ deleter_calls m' = deleter_calls m
      ∧ bytes m' = bytes m.
Proof.
  intros (Hself & L & HL & Hsz & Hbound & Hseg & Hnd) Halloc Hfresh Hroom.
  unfold akvcam_list_push_back.
  destruct (Z.eqb_spec self NULL) as [|_]; [done|].
  unfold kzalloc_element at 1.
  unfold bind at 1.
  destruct (Z.eqb_spec alloc NULL) as [|_]; [done|].
  destruct (Z.eqb_spec alloc NULL) as [|_]; [done|].
  unfold set_data, set_deleter.
  erewrite bind_done; cycle 1.
  { exec_by load_node_done; [|simpl; apply lookup_insert_eq].
    eapply store_node_done; [done|]. simpl. apply lookup_insert_eq. }
  erewrite bind_done; cycle 1.
  { exec_by load_node_done; [|simpl; apply lookup_insert_eq].
    eapply store_node_done; [done|]. simpl. apply lookup_insert_eq. }
  erewrite bind_done; cycle 1.
  { exec_by load_list_done.
    eapply set_prev_done; [done|]. simpl. apply lookup_insert_eq. }
  erewrite bind_done; cycle 1.
  { exec_by load_list_done. eapply set_size_done; [done|]. simpl. eassumption. }
  unfold with_nodes, with_lists. simpl. rewrite !insert_insert_eq.
  assert (∀ a, a ∈ it_node <$> l →
            <[alloc := Element data deleter (l_tail L) 0]> (nodes m) !! a = nodes m !! a)
    as Hframe.
  { intros a Ha. rewrite lookup_insert_ne; [done|]. intros <-.
    apply list_elem_of_fmap in Ha as (y & -> & Hy).
    destruct (dlseg_lookup _ _ _ _ _ _ _ Hseg Hy) as (? & ? & Heq). congruence. }
  assert (alloc ∉ it_node <$> l) as Hnotin.
  { intros Ha. apply list_elem_of_fmap in Ha as (y & -> & Hy).
    destruct (dlseg_lookup _ _ _ _ _ _ _ Hseg Hy) as (? & ? & Heq). congruence. }
  assert (NoDup (it_node <$> (l ++ [Item alloc data deleter]))) as Hnd'.
  { rewrite fmap_app. apply NoDup_app. split_and!; [done| |apply NoDup_singleton].
    intros a Ha Hb. simpl in Hb. apply list_elem_of_singleton in Hb as ->. done. }
  destruct (decide (l = [])) as [->|Hne].
  - simpl in Hseg. destruct Hseg as [Hh Ht]. rewrite Ht in *. simpl.
    erewrite bind_done; cycle 1.
    { exec_by load_list_done; [|simpl; apply lookup_insert_eq]. simpl.
      exec_by set_head_done; [|simpl; apply lookup_insert_eq].
      eapply set_tail_done; [done|]. simpl. apply lookup_insert_eq. }
    eexists. split; [reflexivity|]. simpl. split_and!; try done.
    split; [done|]. eexists. simpl. rewrite lookup_insert_eq. split; [done|]. simpl.
    rewrite lookup_insert_eq. rewrite Hsz. simpl in *. rewrite size_wrap_small by lia.
    split_and!; try done. eauto.
  - destruct (dlseg_set_exit _ _ _ _ _ _ Hseg Hne Hnd) as (Ht & e & Hlkt & Hnx & Hupd).
    assert (l_tail L ≠ alloc) as Hta by congruence.
    erewrite bind_done; cycle 1.
    { exec_by load_list_done; [|simpl; apply lookup_insert_eq]. simpl.
      destruct (Z.eqb_spec (l_tail L) NULL) as [|_]; [done|]. simpl.
      exec_by set_next_done; [|simpl; rewrite lookup_insert_ne by done; exact Hlkt].
      eapply set_tail_done; [done|]. simpl. apply lookup_insert_eq. }
    eexists. split; [reflexivity|]. simpl. split_and!; try done.
    split; [done|]. eexists. simpl. rewrite lookup_insert_eq. split; [done|]. simpl.
    rewrite length_app, Nat2Z.inj_add. simpl.
    rewrite Hsz, size_wrap_small by lia.
    split_and!; try done.
    apply dlseg_snoc. exists (l_tail L). simpl.
    rewrite insert_insert_ne by done. rewrite lookup_insert_eq.
    split_and!; try done.
    eapply dlseg_ext; [|apply (Hupd alloc)].
    intros a Ha. rewrite lookup_insert_ne; [done|]. by intros <-.
Qed.

(** *** clear *)

Lemma maybe_call_deleter_done m x p n :
  it_node x ≠ NULL →
  nodes m !! it_node x = Some (Element (it_data x) (it_deleter x) p n) →
  bind (load_node (it_node x)) (λ e,
     if negb (el_data e =? NULL) && negb (el_deleter e =? NULL)
     then call_deleter (it_node x) else ret tt) m
  = Done tt (Machine (lists m) (nodes m) (bytes m) (last_error m)
               (deleter_calls m ++ deleter_call_of x)).
Proof.
  intros Hn Hlk. exec_by load_node_done. simpl.
  unfold deleter_call_of, owns_payload.
  destruct (negb (it_data x =? NULL) && negb (it_deleter x =? NULL)).
  - unfold call_deleter. by exec_by load_node_done.
  - rewrite app_nil_r. by destruct m.
Qed.

Lemma clear_loop_dlseg fuel : ∀ m prv cur l lst,
  dlseg (nodes m) prv cur l lst NULL →
  NoDup (it_node <$> l) →
  (length l < fuel)%nat →
  ∃ h', clear_loop fuel cur m
        = Done tt (Machine (lists m) h' (bytes m) (last_error m)
                     (deleter_calls m ++ clear_calls l))
      ∧ (∀ a, a ∈ it_node <$> l → h' !! a = None)
      ∧ (∀ a, a ∉ it_node <$> l → h' !! a = nodes m !! a).
Proof.
  induction fuel as [|fuel IH]; intros m prv cur l lst Hseg Hnd Hfuel; [lia|].
  destruct l as [|x l]; simpl in Hseg.
  - destruct Hseg as [-> _]. simpl. exists (nodes m).
    unfold clear_calls. simpl. rewrite app_nil_r. split; [by destruct m|].
    split; [|done]. intros x Hx. by apply elem_of_nil in Hx.
  - destruct Hseg as (-> & Hn & n & Hlk & Hseg).
    simpl in Hnd. apply NoDup_cons in Hnd as [Hx Hnd].
    cbn [clear_loop]. destruct (Z.eqb_spec (it_node x) NULL) as [|_]; [done|].
    erewrite bind_done; [|by eapply maybe_call_deleter_done].
    exec_by load_node_done. simpl.
    exec_by kfree_element_done. unfold with_nodes. simpl.
    edestruct (IH (Machine (lists m) (delete (it_node x) (nodes m)) (bytes m)
                     (last_error m) (deleter_calls m ++ deleter_call_of x))
                 (it_node x) n l lst) as (h' & Hrun & Hfreed & Hkept).
    { simpl. eapply dlseg_ext; [|exact Hseg]. intros a Ha.
      rewrite lookup_delete_ne; [done|]. by intros <-. }
    { done. }
    { simpl in Hfuel. lia. }
    simpl in Hrun. rewrite Hrun. exists h'.
    unfold clear_calls. simpl. rewrite app_assoc. split; [done|]. split.
    + intros a Ha. apply elem_of_cons in Ha as [->|Ha]; [|by apply Hfreed].
      rewrite Hkept by done. simpl. apply lookup_delete_eq.
    + intros a Ha. apply not_elem_of_cons in Ha as [Hax Ha].
      rewrite Hkept by done. simpl. by apply lookup_delete_ne.
Qed.

Lemma akvcam_list_clear_null fuel m : akvcam_list_clear fuel NULL m = Done tt m.
Proof. reflexivity. Qed.

Lemma akvcam_list_clear_repr fuel m self l :
  list_repr m self l → (length l < fuel)%nat →
  ∃ m', akvcam_list_clear fuel self m = Done tt m'
      ∧ list_repr m' self []
      ∧ deleter_calls m' = deleter_calls m ++ clear_calls l
      ∧ (∀ x, x ∈ l → nodes m' !! it_node x = None)
      ∧ last_error m' = last_error m.
Proof.
  intros (Hself & L & HL & Hsz & Hbound & Hseg & Hnd) Hfuel.
  unfold akvcam_list_clear.
  destruct (Z.eqb_spec self NULL) as [|_]; [done|].
  exec_by load_list_done.
  destruct (clear_loop_dlseg fuel m _ _ _ _ Hseg Hnd Hfuel) as (h' & Hrun & Hfreed & _).
  exec_by Hrun.
  erewrite store_list_done; [|done|simpl; eassumption].
  eexists. split; [reflexivity|]. unfold with_lists. simpl. split_and!; try done.
  - split; [done|]. eexists. simpl. rewrite lookup_insert_eq. split; [done|].
    simpl. split_and!; try done. apply NoDup_nil_2.
  - intros x Hx. apply Hfreed. by apply list_elem_of_fmap_2.
Qed.

(** *** erase *)

Lemma erase_loop_walk m a : ∀ l1 fuel prv cur lst,
  dlseg (nodes m) prv cur l1 lst a →
  a ≠ NULL → a ∉ it_node <$> l1 →
  (length l1 < fuel)%nat →
  erase_loop fuel cur a m = erase_found a m.
Proof.
  induction l1 as [|y l1 IH]; intros fuel prv cur lst Hseg Ha Hnotin Hfuel;
    (destruct fuel as [|fuel]; [simpl in Hfuel; lia|]); simpl in Hseg.
  - destruct Hseg as [-> _]. cbn [erase_loop].
    destruct (Z.eqb_spec a NULL) as [|_]; [done|]. by rewrite Z.eqb_refl.
  - destruct Hseg as (-> & Hn & n & Hlk & Hseg).
    apply not_elem_of_cons in Hnotin as [Hay Hnotin].
    cbn [erase_loop]. destruct (Z.eqb_spec (it_node y) NULL) as [|_]; [done|].
    destruct (Z.eqb_spec (it_node y) a) as [|_]; [done|].
    exec_by load_node_done. simpl. eapply IH; eauto. simpl in Hfuel. lia.
Qed.

Lemma akvcam_list_erase_member fuel m self l1 x l2 :
  list_repr m self (l1 ++ x :: l2) →
  (length l1 < fuel)%nat →
  ∃ h' p n lst',
    akvcam_list_erase fuel self (it_node x) m
    = Done tt (Machine (lists m) h' (bytes m) (last_error m)
                 (deleter_calls m ++ deleter_call_of x))
    ∧ h' !! it_node x = None
    ∧ dlseg h' p n l2 lst' NULL
    ∧ (l1 ≠ [] → ∃ L, lists m !! self = Some L ∧ dlseg h' NULL (l_head L) l1 p n).
Proof.
  intros (Hself & L & HL & Hsz & Hbound & Hseg & Hnd) Hfuel.
  apply NoDup_middle in Hnd as (Hx1 & Hx2 & Hnd1 & Hnd2 & Hnd12 & Hdisj).
  apply dlseg_app in Hseg as (p & a & H1 & H2). simpl in H2.
  destruct H2 as (-> & Ha & n & Hlk & H2).
  unfold akvcam_list_erase. exec_by load_list_done.
  erewrite erase_loop_walk; [|exact H1|done|done|done].
  unfold erase_found.
  erewrite bind_done; [|by eapply maybe_call_deleter_done].
  set (m0 := Machine (lists m) (nodes m) (bytes m) (last_error m)
               (deleter_calls m ++ deleter_call_of x)).
  assert (∃ h1,
    bind (load_node (it_node x)) (λ e,
       if negb (el_prev e =? NULL) then set_next (el_prev e) (el_next e)
       else ret tt) m0 = Done tt (with_nodes (λ _, h1) m0) ∧
    (l1 ≠ [] → dlseg h1 NULL (l_head L) l1 p n) ∧
    h1 !! it_node x = Some (Element (it_data x) (it_deleter x) p n) ∧
    dlseg h1 (it_node x) n l2 (l_tail L) NULL)
    as (h1 & Hrun1 & H11 & Hlk1 & H21).
  { exec_by load_node_done. simpl.
    destruct (decide (l1 = [])) as [->|Hne].
    - simpl in H1. destruct H1 as [Hh ->]. simpl.
      exists (nodes m). split_and!; try done.
    - destruct (dlseg_set_exit _ _ _ _ _ _ H1 Hne Hnd1) as (Hp & e & Hlkp & Hnx & Hupd).
      destruct (Z.eqb_spec p NULL) as [|_]; [done|]. simpl.
      eexists. split; [by eapply set_next_done|]. simpl.
      assert (p ≠ it_node x) as Hpx.
      { intros ->. apply Hx1. eapply dlseg_last_in; eauto. }
      split_and!; try done.
      + by rewrite lookup_insert_ne.
      + eapply dlseg_ext; [|exact H2]. intros b Hb.
        rewrite lookup_insert_ne; [done|]. intros <-.
        eapply Hdisj; [|exact Hb]. eapply dlseg_last_in; eauto. }
  exec_by Hrun1.
  assert (∃ h2 lst',
    bind (load_node (it_node x)) (λ e,
       if negb (el_next e =? NULL) then set_prev (el_next e) (el_prev e)
       else ret tt) (with_nodes (λ _, h1) m0) = Done tt (with_nodes (λ _, h2) m0) ∧
    (l1 ≠ [] → dlseg h2 NULL (l_head L) l1 p n) ∧
    h2 !! it_node x = Some (Element (it_data x) (it_deleter x) p n) ∧
    dlseg h2 p n l2 lst' NULL)
    as (h2 & lst' & Hrun2 & H12 & Hlk2 & H22).
  { exec_by load_node_done. simpl.
    destruct (decide (l2 = [])) as [->|Hne].
    - simpl in H21. destruct H21 as [-> Htl]. simpl.
      exists h1, p. split_and!; try done.
    - destruct (dlseg_set_entry _ _ _ _ _ _ H21 Hne Hnd2) as (Hn & e & Hlkn & Hpv & Hupd).
      destruct (Z.eqb_spec n NULL) as [|_]; [done|]. simpl.
      eexists _, (l_tail L). split.
      { erewrite set_prev_done; [|done|simpl; eassumption].
        unfold with_nodes. simpl. reflexivity. }
      simpl.
      assert (n ≠ it_node x) as Hnx.
      { intros ->. apply Hx2. eapply dlseg_first_in; eauto. }
      split_and!; try done.
      + intros Hne1. eapply dlseg_ext; [|exact (H11 Hne1)]. intros b Hb.
        rewrite lookup_insert_ne; [done|]. intros <-.
        eapply Hdisj; [exact Hb|]. eapply dlseg_first_in; eauto.
      + by rewrite lookup_insert_ne. }
  exec_by Hrun2.
  erewrite kfree_element_done; [|done|simpl; eassumption].
  exists (delete (it_node x) h2), p, n, lst'. split; [reflexivity|].
  rewrite lookup_delete_eq. split_and!; try done.
  - eapply dlseg_ext; [|exact H22]. intros b Hb.
    rewrite lookup_delete_ne; [done|]. by intros <-.
  - intros Hne1. exists L. split; [done|].
    eapply dlseg_ext; [|exact (H12 Hne1)]. intros b Hb.
    rewrite lookup_delete_ne; [done|]. by intros <-.
Qed.

(** *** find *)

Lemma memcmp_done m cs ct size :
  memcmp cs ct size m = outcome_of (memcmp_bytes (bytes m) cs ct (Z.to_nat size)) m.
Proof. reflexivity. Qed.

Lemma find_loop_dlseg m data size equals : ∀ l prv cur lst nxt,
  dlseg (nodes m) prv cur l lst nxt →
  find_loop (length l) cur data size equals m
  = outcome_of (first_match (bytes m) equals data size l) m.
Proof.
  induction l as [|x l IH]; intros prv cur lst nxt Hseg; simpl in Hseg; [done|].
  destruct Hseg as (-> & Hn & n & Hlk & Hseg).
  cbn [length find_loop first_match].
  exec_by load_node_done. simpl.
  destruct equals as [eq|]; simpl.
  - unfold bind at 1.
    destruct (eq (bytes m) (it_data x) data size); [done|].
    exec_by load_node_done. simpl. eauto.
  - unfold bind at 1. unfold bind at 1. rewrite memcmp_done.
    destruct (memcmp_bytes (bytes m) (it_data x) data (Z.to_nat size)) as [c|]; [|done].
    simpl. destruct (c =? 0); [done|].
    exec_by load_node_done. simpl. eauto.
Qed.

Lemma to_ssize_small z : 0 ≤ z < 2 ^ 63 → to_ssize z = z.
Proof.
  intros H. unfold to_ssize. destruct (Z.ltb_spec z (2 ^ 63)); [done|lia].
Qed.

Lemma akvcam_list_find_null m data size equals :
  akvcam_list_find NULL data size equals m = Done NULL m.
Proof. reflexivity. Qed.

Lemma akvcam_list_find_repr m self l data size equals :
  list_repr m self l →
  akvcam_list_find self data size equals m
  = outcome_of (find_spec (bytes m) l data size equals) m.
Proof.
  intros (Hself & L & HL & Hsz & Hbound & Hseg & Hnd).
  unfold akvcam_list_find, find_spec.
  destruct (Z.eqb_spec self NULL) as [|_]; [done|].
  exec_by load_list_done.
  destruct l as [|t l _] using rev_ind.
  - simpl in Hsz. rewrite Hsz. done.
  - rewrite last_snoc, removelast_last.
    rewrite length_app in Hsz, Hbound. simpl in Hsz, Hbound.
    destruct (Z.ltb_spec (l_size L) 1) as [|_]; [lia|]. simpl.
    rewrite negb_orb, negb_involutive.
    destruct ((size =? 0) && negb (given equals)); [done|]. simpl.
    apply dlseg_snoc in Hseg as (p & Hseg & Ht & Htl & Hlk).
    rewrite Htl. exec_by load_node_done. simpl.
    unfold bind at 1. rewrite memcmp_done.
    destruct (memcmp_bytes (bytes m) (it_data t) data (Z.to_nat size)) as [c|]; [|done].
    simpl. destruct (c =? 0); [done|].
    rewrite to_ssize_small by lia.
    replace (Z.to_nat (l_size L - 1)) with (length l) by lia.
    eapply find_loop_dlseg. exact Hseg.
Qed.

(** *** next *)

Lemma akvcam_list_next_start m self l :
  list_repr m self l →
  akvcam_list_next self (Some NULL) m
  = Done (match l with
          | [] => (NULL, Some NULL)
          | x :: _ => (it_data x, Some (it_node x))
          end) m.
Proof.
  intros (Hself & L & HL & Hsz & Hbound & Hseg & Hnd).
  unfold akvcam_list_next.
  destruct (Z.eqb_spec self NULL) as [|_]; [done|]. simpl.
  exec_by load_list_done.
  destruct l as [|x l]; simpl in Hseg.
  - destruct Hseg as [-> _]. done.
  - destruct Hseg as (-> & Hn & n & Hlk & _).
    destruct (Z.eqb_spec (it_node x) NULL) as [|_]; [done|]. simpl.
    by exec_by load_node_done.
Qed.

Lemma akvcam_list_next_step m self l1 x l2 :
  list_repr m self (l1 ++ x :: l2) →
  akvcam_list_next self (Some (it_node x)) m
  = Done (match l2 with
          | [] => (NULL, Some NULL)
          | y :: _ => (it_data y, Some (it_node y))
          end) m.
Proof.
  intros (Hself & L & HL & Hsz & Hbound & Hseg & Hnd).
  apply dlseg_app in Hseg as (p & a & H1 & H2). simpl in H2.
  destruct H2 as (-> & Ha & n & Hlk & H2).
  unfold akvcam_list_next.
  destruct (Z.eqb_spec self NULL) as [|_]; [done|].
  destruct (Z.eqb_spec (it_node x) NULL) as [|_]; [done|]. simpl.
  exec_by load_node_done. simpl.
  destruct l2 as [|y l2]; simpl in H2.
  - destruct H2 as [-> _]. done.
  - destruct H2 as (-> & Hn & n' & Hlk' & _).
    destruct (Z.eqb_spec (it_node y) NULL) as [|_]; [done|]. simpl.
    by exec_by load_node_done.
Qed.

(** ** The structural invariants of a well-formed list *)

Lemma walk_next_dlseg h : ∀ l prv cur lst nxt,
  dlseg h prv cur l lst nxt → walk el_next h (length l) cur = Some nxt.
Proof.
  induction l as [|x l IH]; intros prv cur lst nxt Hseg; simpl in Hseg.
  - by destruct Hseg as [-> _].
  - destruct Hseg as (-> & Hn & n & Hlk & Hseg). simpl.
    destruct (Z.eqb_spec (it_node x) NULL) as [|_]; [done|].
    rewrite Hlk. simpl. eauto.
Qed.

Lemma walk_prev_dlseg h : ∀ l prv cur lst nxt,
  dlseg h prv cur l lst nxt → walk el_prev h (length l) lst = Some prv.
Proof.
  induction l as [|x l IH] using rev_ind; intros prv cur lst nxt Hseg.
  - simpl in Hseg. by destruct Hseg as [_ ->].
  - apply dlseg_snoc in Hseg as (p & Hseg & Hn & -> & Hlk).
    rewrite length_app. simpl. rewrite Nat.add_1_r. simpl.
    destruct (Z.eqb_spec (it_node x) NULL) as [|_]; [done|].
    rewrite Hlk. simpl. eauto.
Qed.

Lemma walk_add field h a : ∀ b p,
  walk field h (a + b) p = walk field h a p ≫= walk field h b.
Proof.
  induction a as [|a IH]; intros b p; simpl; [done|].
  destruct (p =? NULL); [done|]. destruct (h !! p); [|done]. apply IH.
Qed.

Lemma list_repr_structural_invariant m self l :
  list_repr m self l → structural_invariant m self = true.
Proof.
  intros (Hself & L & HL & Hsz & Hbound & Hseg & Hnd).
  unfold structural_invariant. rewrite HL, Hsz, Nat2Z.id.
  rewrite (walk_next_dlseg _ _ _ _ _ _ Hseg), (walk_prev_dlseg _ _ _ _ _ _ Hseg).
  simpl. rewrite !andb_true_r.
  destruct l as [|t l _] using rev_ind.
  - simpl in *. destruct Hseg as [-> ->]. done.
  - pose proof Hseg as Hseg'.
    apply dlseg_snoc in Hseg' as (p & Hseg' & Hn & Htl & Hlk).
    rewrite length_app. simpl. rewrite Nat.add_1_r. simpl.
    rewrite (walk_next_dlseg _ _ _ _ _ _ Hseg'). simpl.
    assert (l_head L ≠ NULL) as Hh.
    { destruct l; simpl in Hseg'; [destruct Hseg' as [-> _]; done|].
      by destruct Hseg' as (_ & ? & _). }
    destruct (Z.eqb_spec (l_head L) NULL) as [|_]; [done|]. simpl.
    rewrite Htl, Z.eqb_refl.
    simpl.
    (* the reverse walk stops on the head *)
    destruct l as [|h0 l]; simpl in Hseg'.
    + destruct Hseg' as [-> _]. simpl. by rewrite Z.eqb_refl.
    + destruct Hseg as (Hh0 & _ & n0 & Hlk0 & Hrest).
      pose proof (walk_prev_dlseg _ _ _ _ _ _ Hrest) as Hw.
      rewrite length_app in Hw. simpl in Hw. rewrite Nat.add_1_r in Hw.
      simpl in Hw. simpl. rewrite Htl in Hw. rewrite Hw. simpl. by rewrite Z.eqb_refl.
Qed.

(** ** Counting deleter calls *)

Lemma calls_on_app a c1 c2 : calls_on a (c1 ++ c2) = (calls_on a c1 + calls_on a c2)%nat.
Proof. unfold calls_on. by rewrite filter_app, length_app. Qed.

Lemma calls_on_deleter_call_of a x :
  calls_on a (deleter_call_of x)
  = if decide (it_node x = a) then (if owns_payload x then 1 else 0)%nat else 0%nat.
Proof.
  unfold deleter_call_of, calls_on. destruct (owns_payload x).
  - rewrite filter_cons. simpl. by destruct (decide (it_node x = a)).
  - by destruct (decide (it_node x = a)).
Qed.

Lemma calls_on_clear_calls_fresh a l :
  a ∉ it_node <$> l → calls_on a (clear_calls l) = 0%nat.
Proof.
  induction l as [|y l IH]; [done|]. intros Ha.
  apply not_elem_of_cons in Ha as [Hay Ha].
  change (clear_calls (y :: l)) with (deleter_call_of y ++ clear_calls l).
  rewrite calls_on_app, calls_on_deleter_call_of, (IH Ha).
  destruct (decide (it_node y = a)); [congruence|done].
Qed.

Lemma calls_on_clear_calls l1 x l2 :
  NoDup (it_node <$> (l1 ++ x :: l2)) →
  calls_on (it_node x) (clear_calls (l1 ++ x :: l2))
  = (if owns_payload x then 1 else 0)%nat.
Proof.
  intros (Hx1 & Hx2 & _)%NoDup_middle.
  unfold clear_calls. rewrite bind_app.
  change ((x :: l2) ≫= deleter_call_of) with (deleter_call_of x ++ clear_calls l2).
  rewrite !calls_on_app, calls_on_deleter_call_of.
  fold (clear_calls l1).
  rewrite !calls_on_clear_calls_fresh by done.
  destruct (decide (it_node x = it_node x)); [|done]. simpl. lia.
Qed.

(** ** The sample memory *)

Lemma sample_repr : list_repr sample 1000 sample_items.
Proof.
  split; [done|]. exists (List 77 3 100 300).
  split; [reflexivity|]. split; [reflexivity|]. split; [reflexivity|]. split.
  - simpl. split; [done|]. split; [done|]. exists 200. split; [reflexivity|].
    split; [done|]. split; [done|]. exists 300. split; [reflexivity|].
    split; [done|]. split; [done|]. exists 0. split; [reflexivity|]. done.
  - by apply (bool_decide_unpack (NoDup (it_node <$> sample_items))).
Qed.

Lemma list_repr_split m self l i x :
  list_repr m self l → l !! i = Some x →
  list_repr m self (take i l ++ x :: drop (S i) l) ∧ length (take i l) = i.
Proof.
  intros Hrepr Hx. rewrite take_drop_middle by done. split; [done|].
  apply length_take_le. apply lookup_lt_Some in Hx. lia.
Qed.

(** * The claims *)

(** ** Positional access *)

(** At the first position and at interior positions [akvcam_list_at]
    returns the payload handle of the element. *)
Lemma akvcam_list_at_payload m self l1 x l2 :
  list_repr m self (l1 ++ x :: l2) → l1 = [] ∨ l2 ≠ [] →
  akvcam_list_at self (Z.of_nat (length l1)) m = Done (it_data x) m.
Proof.
  intros Hrepr Hpos. rewrite (akvcam_list_at_member _ _ _ _ _ Hrepr).
  destruct l1; [done|]. destruct l2; [|done]. by destruct Hpos.
Qed.

(** C1: at every position but the last (and at the last one of a
    one-element list) [akvcam_list_at] returns the payload handle
    ([akvcam_list_at_payload]); at the last position of a list of two or
    more elements the line [return self->tail;] returns the address of
    the node, not the payload handle stored in it. *)
Theorem at_last_position_returns_node m self l x :
  list_repr m self (l ++ [x]) → l ≠ [] →
  akvcam_list_at self (Z.of_nat (length l)) m = Done (it_node x) m.
Proof.
  intros Hrepr Hne. rewrite (akvcam_list_at_member _ _ _ _ _ Hrepr).
  by destruct l.
Qed.

Lemma at_last_position_returns_node_witness :
  akvcam_list_at 1000 2 sample = Done 300 sample.
Proof.
  exact (at_last_position_returns_node sample 1000
           [Item 100 700 0; Item 200 0 9] (Item 300 800 9)
           sample_repr ltac:(done)).
Defined.

(** ** Failure of an allocation *)

(** When the node cannot be allocated, [akvcam_list_push_back] reports
    failure and touches nothing but the last-error slot. *)
Lemma akvcam_list_push_back_enomem_unchanged m self l data deleter :
  list_repr m self l →
  ∃ m', akvcam_list_push_back NULL self data deleter m = Done false m'
      ∧ lists m' = lists m ∧ nodes m' = nodes m ∧ list_repr m' self l.
Proof.
  intros Hrepr. pose proof Hrepr as (Hself & _).
  rewrite akvcam_list_push_back_enomem by done.
  eexists. split; [reflexivity|]. split_and!; try done.
Qed.

(** C2: the node allocation failing leaves the list unchanged
    ([akvcam_list_push_back_enomem_unchanged]), but the result of
    [kmemdup] is not tested: when the duplication fails and the node
    allocation succeeds, [akvcam_list_push_back_copy] appends an element
    with a null payload, returns [true] and records success. *)
Theorem push_back_copy_failed_duplication_appends m self l alloc data data_size deleter :
  list_repr m self l →
  alloc ≠ NULL → nodes m !! alloc = None →
  Z.of_nat (length l) + 1 < 2 ^ 63 →
  ∃ m', akvcam_list_push_back_copy NULL alloc self data data_size deleter m = Done true m'
      ∧ list_repr m' self (l ++ [Item alloc NULL deleter])
      ∧ akvcam_list_size self m' = Done (Z.of_nat (length l) + 1) m'
      ∧ last_error m' = 0.
Proof.
  intros Hrepr Halloc Hfresh Hroom.
  destruct (akvcam_list_push_back_done m self l alloc NULL deleter Hrepr Halloc Hfresh Hroom)
    as (m' & Hrun & Hrepr' & Hle & _).
  exists m'. unfold akvcam_list_push_back_copy.
  rewrite (bind_done m (kmemdup NULL data data_size) _ NULL m eq_refl).
  split_and!; try done.
  rewrite (akvcam_list_size_repr _ _ _ Hrepr'), length_app. simpl.
  f_equal. lia.
Qed.

Lemma push_back_copy_failed_duplication_appends_witness :
  ∃ m', akvcam_list_push_back_copy NULL 400 1000 700 1 9 sample = Done true m'
      ∧ list_repr m' 1000 (sample_items ++ [Item 400 NULL 9])
      ∧ akvcam_list_size 1000 m' = Done 4 m'
      ∧ last_error m' = 0.
Proof.
  apply (push_back_copy_failed_duplication_appends sample 1000 sample_items 400 700 1 9
           sample_repr); [done|reflexivity|reflexivity].
Defined.

(** ** Structural invariants *)

(** [akvcam_list_push_back], [akvcam_list_pop] and [akvcam_list_clear]
    keep the header and the chain in agreement. *)
Lemma mutators_preserve_invariant fuel m self l :
  list_repr m self l →
  (∀ alloc data deleter,
     alloc ≠ NULL → nodes m !! alloc = None → Z.of_nat (length l) + 1 < 2 ^ 63 →
     ∃ m', akvcam_list_push_back alloc self data deleter m = Done true m'
         ∧ structural_invariant m' self = true)
  ∧ (∀ i x data deleter,
       l !! i = Some x →
       ∃ m', akvcam_list_pop self (Z.of_nat i) data deleter m
             = Done (PopResult true (write_out data (it_data x))
                       (write_out deleter (it_deleter x))) m'
           ∧ structural_invariant m' self = true)
  ∧ ((length l < fuel)%nat →
     ∃ m', akvcam_list_clear fuel self m = Done tt m'
         ∧ structural_invariant m' self = true).
Proof.
  intros Hrepr. split_and!.
  - intros alloc data deleter Ha Hf Hr.
    destruct (akvcam_list_push_back_done _ _ _ _ data deleter Hrepr Ha Hf Hr)
      as (m' & Hrun & Hrepr' & _).
    eauto using list_repr_structural_invariant.
  - intros i x data deleter Hx.
    destruct (list_repr_split _ _ _ _ _ Hrepr Hx) as [Hsplit Hlen].
    destruct (akvcam_list_pop_member _ _ _ _ _ data deleter Hsplit)
      as (m' & Hrun & Hrepr' & _).
    rewrite Hlen in Hrun. eauto using list_repr_structural_invariant.
  - intros Hfuel.
    destruct (akvcam_list_clear_repr _ _ _ _ Hrepr Hfuel) as (m' & Hrun & Hrepr' & _).
    eauto using list_repr_structural_invariant.
Qed.

(** C3: [akvcam_list_erase] frees the node and re-links its neighbours
    but never writes [self->size], [self->head] or [self->tail]: erasing
    any element of a well-formed list leaves a header that disagrees with
    the chain. *)
Theorem erase_breaks_structural_invariant fuel m self l1 x l2 :
  list_repr m self (l1 ++ x :: l2) → (length l1 < fuel)%nat →
  structural_invariant m self = true ∧
  ∃ m', akvcam_list_erase fuel self (it_node x) m = Done tt m'
      ∧ structural_invariant m' self = false.
Proof.
  intros Hrepr Hfuel. split; [by eapply list_repr_structural_invariant|].
  destruct (akvcam_list_erase_member fuel m self l1 x l2 Hrepr Hfuel)
    as (h' & p & n & lst' & Hrun & Hfreed & H2 & H1).
  eexists. split; [exact Hrun|].
  destruct Hrepr as (Hself & L & HL & Hsz & Hbound & Hseg & Hnd).
  unfold structural_invariant. simpl. rewrite HL.
  assert (reaches (walk el_next h' (Z.to_nat (l_size L)) (l_head L)) NULL = false) as ->.
  { rewrite Hsz, Nat2Z.id. destruct (decide (l1 = [])) as [->|Hne].
    - simpl in Hseg. destruct Hseg as (Hh & Hn & _). simpl.
      rewrite Hh, Hfreed. by destruct (it_node x =? NULL).
    - destruct (H1 Hne) as (L' & HL' & H1').
      assert (L' = L) as -> by congruence.
      assert (dlseg h' NULL (l_head L) (l1 ++ l2) lst' NULL) as Hchain.
      { apply dlseg_app. eauto. }
      replace (length (l1 ++ x :: l2)) with (length (l1 ++ l2) + 1)%nat
        by (rewrite !length_app; simpl; lia).
      rewrite walk_add, (walk_next_dlseg _ _ _ _ _ _ Hchain). done. }
  by rewrite andb_false_r.
Qed.

Lemma erase_breaks_structural_invariant_witness :
  structural_invariant sample 1000 = true ∧
  ∃ m', akvcam_list_erase 5 1000 200 sample = Done tt m'
      ∧ structural_invariant m' 1000 = false.
Proof.
  apply (erase_breaks_structural_invariant 5 sample 1000
           [Item 100 700 0] (Item 200 0 9) [Item 300 800 9] sample_repr).
  simpl. lia.
Defined.

(** ** Absent list handle *)

(** Every operation but [akvcam_list_erase] tests [!self] first. *)
Lemma null_handle_is_tested_elsewhere m :
  akvcam_list_size NULL m = Done 0 m
  ∧ akvcam_list_empty NULL m = Done true m
  ∧ (∀ i, akvcam_list_at NULL i m = Done NULL m)
  ∧ (∀ alloc data deleter, akvcam_list_push_back alloc NULL data deleter m = Done false m)
  ∧ (∀ alloc data data_size deleter,
       akvcam_list_push_back_copy NULL alloc NULL data data_size deleter m = Done false m)
  ∧ (∀ i data deleter, pop_ok <$> returned (akvcam_list_pop NULL i data deleter m) = Some false)
  ∧ (∀ fuel, akvcam_list_clear fuel NULL m = Done tt m)
  ∧ (∀ data size equals, akvcam_list_find NULL data size equals m = Done NULL m)
  ∧ (∀ cursor, akvcam_list_next NULL (Some cursor) m = Done (NULL, Some cursor) m).
Proof. split_and!; done. Qed.

(** C4: [akvcam_list_erase] reads [self->head] without testing [self]; on
    a null handle the call is a null dereference, not a no-op. *)
Theorem erase_null_handle_faults fuel element m :
  akvcam_list_erase fuel NULL element m = Fault.
Proof. reflexivity. Qed.

(** ** Deleters *)

(** C5 as stated fails: [akvcam_list_clear] removes the second element of
    the sample list, whose deleter is present, without invoking that
    deleter, because its payload handle is null. *)
Lemma clear_skips_deleter_of_null_payload :
  ¬ (∀ fuel m self l x m',
       list_repr m self l → x ∈ l → it_deleter x ≠ NULL →
       akvcam_list_clear fuel self m = Done tt m' →
       calls_on (it_node x) (deleter_calls m')
       = S (calls_on (it_node x) (deleter_calls m))).
Proof.
  intros H.
  specialize (H 4%nat sample 1000 sample_items (Item 200 0 9)
                (Machine {[1000 := List 0 0 0 0]} ∅ (bytes sample) 5
                   [DeleterCall 9 300 800])
                sample_repr).
  assert (Item 200 0 9 ∈ sample_items) as Hin.
  { apply list_elem_of_lookup. by exists 1%nat. }
  specialize (H Hin ltac:(done) ltac:(vm_compute; reflexivity)).
  vm_compute in H. discriminate H.
Qed.

(** C5, amended: the deleter of an element runs under the guard
    [data && deleter].  Removing the element by [akvcam_list_clear] or by
    [akvcam_list_erase] invokes its deleter exactly once when both its
    payload handle and its deleter are non-null, and not at all
    otherwise; [akvcam_list_pop] invokes no deleter and hands the deleter
    to the caller.  In each case the node is freed by the same call. *)
Theorem deleter_invoked_once_for_owned_payload fuel m self l1 x l2 :
  list_repr m self (l1 ++ x :: l2) →
  (length (l1 ++ x :: l2) < fuel)%nat →
  (∃ m', akvcam_list_clear fuel self m = Done tt m'
       ∧ deleter_calls m' = deleter_calls m ++ clear_calls (l1 ++ x :: l2)
       ∧ calls_on (it_node x) (clear_calls (l1 ++ x :: l2))
         = (if owns_payload x then 1 else 0)%nat
       ∧ nodes m' !! it_node x = None)
  ∧ (∃ m', akvcam_list_erase fuel self (it_node x) m = Done tt m'
         ∧ deleter_calls m' = deleter_calls m ++ deleter_call_of x
         ∧ length (deleter_call_of x) = (if owns_payload x then 1 else 0)%nat
         ∧ nodes m' !! it_node x = None)
  ∧ (∀ data deleter,
       ∃ m', akvcam_list_pop self (Z.of_nat (length l1)) data deleter m
             = Done (PopResult true (write_out data (it_data x))
                       (write_out deleter (it_deleter x))) m'
           ∧ deleter_calls m' = deleter_calls m
           ∧ nodes m' !! it_node x = None).
Proof.
  intros Hrepr Hfuel. split_and!.
  - destruct (akvcam_list_clear_repr fuel m self _ Hrepr Hfuel)
      as (m' & Hrun & _ & Hcalls & Hfreed & _).
    exists m'. split_and!; try done.
    + apply calls_on_clear_calls. by destruct Hrepr as (_ & L & _ & _ & _ & _ & Hnd).
    + apply Hfreed. apply elem_of_app. right. left.
  - assert (length l1 < fuel)%nat as Hfuel1 by (rewrite length_app in Hfuel; lia).
    destruct (akvcam_list_erase_member fuel m self l1 x l2 Hrepr Hfuel1)
      as (h' & p & n & lst' & Hrun & Hfreed & _).
    eexists. split; [exact Hrun|]. simpl. split_and!; try done.
    unfold deleter_call_of. by destruct (owns_payload x).
  - intros data deleter.
    destruct (akvcam_list_pop_member m self l1 x l2 data deleter Hrepr)
      as (m' & Hrun & _ & Hfreed & Hcalls & _).
    eauto.
Qed.

Lemma deleter_invoked_once_for_owned_payload_witness :
  (∃ m', akvcam_list_clear 4 1000 sample = Done tt m'
       ∧ deleter_calls m' = deleter_calls sample ++ clear_calls sample_items
       ∧ calls_on 300 (clear_calls sample_items) = 1%nat
       ∧ nodes m' !! 300 = None)
  ∧ (∃ m', akvcam_list_erase 4 1000 300 sample = Done tt m'
         ∧ deleter_calls m' = deleter_calls sample ++ [DeleterCall 9 300 800]
         ∧ length [DeleterCall 9 300 800] = 1%nat
         ∧ nodes m' !! 300 = None)
  ∧ (∀ data deleter,
       ∃ m', akvcam_list_pop 1000 2 data deleter sample
             = Done (PopResult true (write_out data 800) (write_out deleter 9)) m'
           ∧ deleter_calls m' = deleter_calls sample
           ∧ nodes m' !! 300 = None).
Proof.
  apply (deleter_invoked_once_for_owned_payload 4 sample 1000
           [Item 100 700 0; Item 200 0 9] (Item 300 800 9) [] sample_repr).
  simpl. lia.
Defined.

(** ** pop *)

(** C6: [akvcam_list_pop] at a valid index removes exactly the element at
    that index, hands its payload handle and deleter to the caller,
    leaves a well-formed list one element shorter and frees the node
    without invoking a deleter; at an index past the end, on an empty
    list or on an absent list it returns [false] and changes nothing. *)
Theorem pop_removes_exactly_one m self l i data deleter :
  0 ≤ i →
  akvcam_list_pop NULL i data deleter m
  = Done (PopResult false (write_out data NULL) (write_out deleter NULL)) m
  ∧ (list_repr m self l →
     match l !! Z.to_nat i with
     | Some x =>
         ∃ m', akvcam_list_pop self i data deleter m
               = Done (PopResult true (write_out data (it_data x))
                         (write_out deleter (it_deleter x))) m'
             ∧ list_repr m' self (delete (Z.to_nat i) l)
             ∧ akvcam_list_size self m' = Done (Z.of_nat (length l) - 1) m'
             ∧ nodes m' !! it_node x = None
             ∧ deleter_calls m' = deleter_calls m
     | None =>
         akvcam_list_pop self i data deleter m
         = Done (PopResult false (write_out data NULL) (write_out deleter NULL)) m
     end).
Proof.
  intros Hi. split; [reflexivity|]. intros Hrepr.
  case_eq (l !! Z.to_nat i).
  - intros x Hx.
    destruct (list_repr_split _ _ _ _ _ Hrepr Hx) as [Hsplit Hlen].
    destruct (akvcam_list_pop_member _ _ _ _ _ data deleter Hsplit)
      as (m' & Hrun & Hrepr' & Hfreed & Hcalls & _).
    rewrite Hlen, Z2Nat.id in Hrun by done.
    rewrite <- delete_take_drop in Hrepr'.
    exists m'. split_and!; try done.
    rewrite (akvcam_list_size_repr _ _ _ Hrepr'). f_equal.
    rewrite length_delete by eauto. apply lookup_lt_Some in Hx. lia.
  - intros Hnone. apply lookup_ge_None in Hnone.
    apply akvcam_list_pop_out_of_range with l; [done|lia].
Qed.

Lemma pop_removes_exactly_one_witness :
  akvcam_list_pop NULL 1 (Some 0) (Some 0) sample
  = Done (PopResult false (Some NULL) (Some NULL)) sample
  ∧ (∃ m', akvcam_list_pop 1000 1 (Some 0) (Some 0) sample
           = Done (PopResult true (Some 0) (Some 9)) m'
         ∧ list_repr m' 1000 [Item 100 700 0; Item 300 800 9]
         ∧ akvcam_list_size 1000 m' = Done 2 m'
         ∧ nodes m' !! 200 = None
         ∧ deleter_calls m' = deleter_calls sample).
Proof.
  destruct (pop_removes_exactly_one sample 1000 sample_items 1 (Some 0) (Some 0)
              ltac:(lia)) as [Habsent Hpresent].
  split; [exact Habsent|]. exact (Hpresent sample_repr).
Defined.

(** ** find *)

(** C7: on a well-formed list [akvcam_list_find] computes [find_spec]:
    "not found" for an empty list or when neither a length nor a
    predicate is given; otherwise the tail is tried first, by byte
    compare whatever the predicate, and then the elements at positions 0
    to size-2 in order, with the predicate if there is one and byte
    equality otherwise. *)
Theorem find_tail_first_then_head_scan m self l data size equals :
  list_repr m self l →
  akvcam_list_find self data size equals m
  = outcome_of (find_spec (bytes m) l data size equals) m.
Proof. apply akvcam_list_find_repr. Qed.

Lemma find_tail_first_then_head_scan_witness :
  akvcam_list_find 1000 900 1 None sample = Done 300 sample.
Proof.
  exact (find_tail_first_then_head_scan sample 1000 sample_items 900 1 None sample_repr).
Defined.

(** The scan order on the sample list: the key at 900 matches the tail
    and the tail wins; the key at 700 matches the head only. *)
Example find_prefers_tail :
  akvcam_list_find 1000 900 1 None sample = Done 300 sample.
Proof. reflexivity. Qed.

Example find_then_scans_from_head :
  akvcam_list_find 1000 700 1 None sample = Done 100 sample.
Proof. reflexivity. Qed.

(** The cases of [find_spec], one by one. *)
Lemma find_spec_not_found mem l data size equals :
  l = [] ∨ (size = 0 ∧ equals = None) →
  find_spec mem l data size equals = Some NULL.
Proof.
  unfold find_spec. intros [->|[-> ->]]; [done|]. by destruct (last l).
Qed.

Lemma find_spec_tail_first mem l t data size equals :
  last l = Some t → size ≠ 0 ∨ given equals = true →
  memcmp_bytes mem (it_data t) data (Z.to_nat size) = Some 0 →
  find_spec mem l data size equals = Some (it_node t).
Proof.
  unfold find_spec. intros -> Hgiven ->.
  destruct Hgiven as [Hs|Hg].
  - apply Z.eqb_neq in Hs. by rewrite Hs.
  - rewrite Hg. by rewrite andb_false_r.
Qed.

Lemma find_spec_then_scan mem l t data size equals c :
  last l = Some t → size ≠ 0 ∨ given equals = true →
  memcmp_bytes mem (it_data t) data (Z.to_nat size) = Some c → c ≠ 0 →
  find_spec mem l data size equals = first_match mem equals data size (removelast l).
Proof.
  unfold find_spec. intros -> Hgiven -> Hc.
  apply Z.eqb_neq in Hc. rewrite Hc.
  destruct Hgiven as [Hs|Hg].
  - apply Z.eqb_neq in Hs. by rewrite Hs.
  - rewrite Hg. by rewrite andb_false_r.
Qed.

(** C9: with a length of zero and a predicate, the byte compare on the
    tail reads nothing and succeeds, so [akvcam_list_find] returns the
    tail of any non-empty list, whatever the predicate and the payloads. *)
Theorem find_zero_length_returns_tail m self l t data eq :
  list_repr m self l → last l = Some t →
  akvcam_list_find self data 0 (Some eq) m = Done (it_node t) m.
Proof.
  intros Hrepr Ht. rewrite (akvcam_list_find_repr _ _ _ _ _ _ Hrepr).
  unfold find_spec. rewrite Ht. reflexivity.
Qed.

Lemma find_zero_length_returns_tail_witness :
  akvcam_list_find 1000 12345 0 (Some never_equal) sample = Done 300 sample.
Proof.
  exact (find_zero_length_returns_tail sample 1000 sample_items (Item 300 800 9)
           12345 never_equal sample_repr eq_refl).
Defined.

(** ** The last-error slot *)

(** C8 as stated fails: a push on a null handle fails and writes nothing,
    so the slot keeps the stale value of the sample memory. *)
Lemma push_back_null_handle_writes_no_status :
  ¬ (∀ alloc self data deleter m r m',
       akvcam_list_push_back alloc self data deleter m = Done r m' →
       last_error m' = if r then 0 else - ENOMEM).
Proof.
  intros H. specialize (H 400 NULL 700 0 sample false sample eq_refl).
  vm_compute in H. discriminate H.
Qed.

(** C8, amended: on a present list, [akvcam_list_push_back] writes
    [-ENOMEM] to the slot when the node allocation fails and 0 when the
    push succeeds; on a null handle it returns [false] and leaves the
    slot as it is. *)
Theorem push_back_status_code m self l alloc data deleter :
  list_repr m self l →
  akvcam_list_push_back NULL self data deleter m
  = Done false (Machine (lists m) (nodes m) (bytes m) (- ENOMEM) (deleter_calls m))
  ∧ (alloc ≠ NULL → nodes m !! alloc = None → Z.of_nat (length l) + 1 < 2 ^ 63 →
     ∃ m', akvcam_list_push_back alloc self data deleter m = Done true m'
         ∧ last_error m' = 0)
  ∧ akvcam_list_push_back alloc NULL data deleter m = Done false m.
Proof.
  intros Hrepr. split_and!.
  - apply akvcam_list_push_back_enomem. by destruct Hrepr.
  - intros Ha Hf Hr.
    destruct (akvcam_list_push_back_done _ _ _ _ data deleter Hrepr Ha Hf Hr)
      as (m' & Hrun & _ & Hle & _).
    eauto.
  - reflexivity.
Qed.

Lemma push_back_status_code_witness :
  akvcam_list_push_back NULL 1000 700 0 sample
  = Done false (Machine (lists sample) (nodes sample) (bytes sample) (- 12)
                  (deleter_calls sample))
  ∧ (∃ m', akvcam_list_push_back 400 1000 700 0 sample = Done true m'
         ∧ last_error m' = 0)
  ∧ akvcam_list_push_back 400 NULL 700 0 sample = Done false sample.
Proof.
  destruct (push_back_status_code sample 1000 sample_items 400 700 0 sample_repr)
    as (Hfail & Hdone & Habsent).
  split; [exact Hfail|]. split; [|exact Habsent].
  apply Hdone; [done|reflexivity|reflexivity].
Defined.

(** ** Iteration *)

(** C10 as stated fails: when [akvcam_list_next] moves to the second
    element of the sample list, whose payload handle is null, and when
    it moves past the last element, the two calls return the same value
    but do not leave the caller's cursor in the same state, so the
    caller can tell them apart. *)
Lemma next_cursor_tells_null_payload_from_end :
  ¬ (∀ m self l1 x l2 t,
       list_repr m self (l1 ++ x :: l2) →
       last (l1 ++ x :: l2) = Some t →
       it_data x = NULL →
       akvcam_list_next self (Some (from_option it_node NULL (last l1))) m
       = akvcam_list_next self (Some (it_node t)) m).
Proof.
  intros H.
  specialize (H sample 1000 [Item 100 700 0] (Item 200 0 9) [Item 300 800 9]
                (Item 300 800 9) sample_repr eq_refl eq_refl).
  apply (f_equal returned) in H. vm_compute in H. discriminate H.
Qed.

(** C10, amended: [akvcam_list_next] returns the payload handle of the
    element it moves the cursor to, and [NULL] when it moves past the
    last element.  When the payload handle of the element is null, the
    value returned is the one returned at the end of the iteration,
    although elements may remain after it; the cursor is what differs:
    it is left on the node of the element, which is not null, and is
    reset to [NULL] only at the end. *)
Theorem next_null_payload_same_value_live_cursor m self l1 x l2 t :
  list_repr m self (l1 ++ x :: l2) →
  last (l1 ++ x :: l2) = Some t →
  let cursor := from_option it_node NULL (last l1) in
  akvcam_list_next self (Some cursor) m = Done (it_data x, Some (it_node x)) m
  ∧ akvcam_list_next self (Some (it_node t)) m = Done (NULL, Some NULL) m
  ∧ (it_data x = NULL →
     fst <$> returned (akvcam_list_next self (Some cursor) m)
     = fst <$> returned (akvcam_list_next self (Some (it_node t)) m))
  ∧ snd <$> returned (akvcam_list_next self (Some cursor) m)
    ≠ snd <$> returned (akvcam_list_next self (Some (it_node t)) m).
Proof.
  intros Hrepr Ht cursor.
  assert (akvcam_list_next self (Some cursor) m = Done (it_data x, Some (it_node x)) m)
    as Hadv.
  { subst cursor. destruct l1 as [|y l1 _] using rev_ind.
    - exact (akvcam_list_next_start _ _ _ Hrepr).
    - rewrite last_snoc. rewrite <- app_assoc in Hrepr.
      exact (akvcam_list_next_step _ _ _ _ _ Hrepr). }
  assert (akvcam_list_next self (Some (it_node t)) m = Done (NULL, Some NULL) m) as Hend.
  { apply last_Some in Ht as [l' Hl']. rewrite Hl' in Hrepr.
    exact (akvcam_list_next_step _ _ _ _ _ Hrepr). }
  assert (it_node x ≠ NULL) as Hlive.
  { destruct Hrepr as (_ & L & _ & _ & _ & Hseg & _).
    apply (dlseg_nodes_nonnull _ _ _ _ _ _ Hseg).
    rewrite fmap_app. apply elem_of_app. right. left. }
  split_and!; try done.
  - intros Hnull. rewrite Hadv, Hend. simpl. by rewrite Hnull.
  - rewrite Hadv, Hend. simpl. congruence.
Qed.

Lemma next_null_payload_same_value_live_cursor_witness :
  akvcam_list_next 1000 (Some 100) sample = Done (NULL, Some 200) sample
  ∧ akvcam_list_next 1000 (Some 300) sample = Done (NULL, Some NULL) sample
  ∧ (NULL = NULL →
     fst <$> returned (akvcam_list_next 1000 (Some 100) sample)
     = fst <$> returned (akvcam_list_next 1000 (Some 300) sample))
  ∧ snd <$> returned (akvcam_list_next 1000 (Some 100) sample)
    ≠ snd <$> returned (akvcam_list_next 1000 (Some 300) sample).
Proof.
  exact (next_null_payload_same_value_live_cursor sample 1000
           [Item 100 700 0] (Item 200 0 9) [Item 300 800 9] (Item 300 800 9)
           sample_repr eq_refl).
Defined.

(** * Further properties of the operations *)

(** ** Computations that only read *)

Lemma bind_inv {A B} (c : M A) (k : A → M B) m b m' :
  bind c k m = Done b m' → ∃ a m1, c m = Done a m1 ∧ k a m1 = Done b m'.
Proof. unfold bind. destruct (c m) as [a m1| |]; [eauto|done|done]. Qed.

Lemma read_only_ret {A} (a : A) : read_only (ret a).
Proof. intros m a' m' H. by injection H as _ <-. Qed.

Lemma read_only_bind {A B} (c : M A) (k : A → M B) :
  read_only c → (∀ a, read_only (k a)) → read_only (bind c k).
Proof.
  intros Hc Hk m b m' (a & m1 & H1 & H2)%bind_inv.
  apply Hc in H1 as ->. by apply Hk in H2.
Qed.

Lemma read_only_load_list p : read_only (load_list p).
Proof.
  intros m a m'. unfold load_list. destruct (p =? NULL); [done|].
  destruct (lists m !! p); [|done]. by intros [= _ <-].
Qed.

Lemma read_only_load_node p : read_only (load_node p).
Proof.
  intros m a m'. unfold load_node. destruct (p =? NULL); [done|].
  destruct (nodes m !! p); [|done]. by intros [= _ <-].
Qed.

Lemma read_only_memcmp cs ct size : read_only (memcmp cs ct size).
Proof.
  intros m a m'. unfold memcmp.
  destruct (memcmp_bytes _ _ _ _); [|done]. by intros [= _ <-].
Qed.

Lemma read_only_advance steps : ∀ element, read_only (advance steps element).
Proof.
  induction steps as [|steps IH]; intros element; simpl.
  - apply read_only_ret.
  - apply read_only_bind; [apply read_only_load_node|]. intros e. apply IH.
Qed.

Ltac read_only_step :=
  first
    [ apply read_only_ret
    | apply read_only_load_list
    | apply read_only_load_node
    | apply read_only_memcmp
    | apply read_only_advance
    | apply read_only_bind; [|intros ?]
    | match goal with
      | |- read_only (if ?b then _ else _) => destruct b
      | |- read_only (match ?o with Some _ => _ | None => _ end) => destruct o
      end ].

Lemma read_only_find_loop data size equals steps :
  ∀ element, read_only (find_loop steps element data size equals).
Proof.
  induction steps as [|steps IH]; intros element; cbn [find_loop].
  - apply read_only_ret.
  - apply read_only_bind; [apply read_only_load_node|]. intros e.
    apply read_only_bind.
    + destruct equals as [eq|]; [|repeat read_only_step].
      intros m a m'. by intros [= _ <-].
    + intros hit. destruct hit; [apply read_only_ret|].
      apply read_only_bind; [apply read_only_load_node|]. intros e'. apply IH.
Qed.

(** The queries never write: whatever the memory, well-formed or not, a
    call of [akvcam_list_size], [akvcam_list_empty], [akvcam_list_at] or
    [akvcam_list_find] (and of [akvcam_list_next], which only writes the
    caller's cursor) that returns leaves every header, node, payload
    byte, the last-error slot and the deleter trace as they were. *)
Theorem queries_leave_memory_unchanged self i data size equals cursor :
  read_only (akvcam_list_size self)
  ∧ read_only (akvcam_list_empty self)
  ∧ read_only (akvcam_list_at self i)
  ∧ read_only (akvcam_list_find self data size equals)
  ∧ read_only (akvcam_list_next self cursor).
Proof.
  split_and!; [| | | |unfold akvcam_list_next; repeat read_only_step].
  - unfold akvcam_list_size. repeat read_only_step.
  - unfold akvcam_list_empty. repeat read_only_step.
  - unfold akvcam_list_at. repeat read_only_step.
  - unfold akvcam_list_find. repeat read_only_step. apply read_only_find_loop.
Qed.

(** ** Addresses that stay free *)

Lemma keeps_free_ret b {A} (a : A) : keeps_free b (ret a).
Proof. intros m a' m' H. by injection H as _ <-. Qed.

Lemma keeps_free_bind b {A B} (c : M A) (k : A → M B) :
  keeps_free b c → (∀ a, keeps_free b (k a)) → keeps_free b (bind c k).
Proof.
  intros Hc Hk m r m' (a & m1 & H1 & H2)%bind_inv Hfree.
  eapply Hk; [exact H2|]. eapply Hc; eauto.
Qed.

Lemma keeps_free_read_only b {A} (c : M A) : read_only c → keeps_free b c.
Proof. intros Hc m a m' Hrun. by apply Hc in Hrun as ->. Qed.

Lemma keeps_free_store_list b p L : keeps_free b (store_list p L).
Proof.
  intros m a m'. unfold store_list. destruct (p =? NULL); [done|].
  destruct (lists m !! p); [|done]. by intros [= _ <-].
Qed.

Lemma keeps_free_store_node b p e : keeps_free b (store_node p e).
Proof.
  intros m a m'. unfold store_node. destruct (p =? NULL); [done|].
  destruct (nodes m !! p) eqn:Hp; [|done]. intros [= _ <-] Hb. simpl.
  rewrite lookup_insert_ne; [done|]. congruence.
Qed.

Lemma keeps_free_kzalloc_element b alloc :
  b ≠ alloc → keeps_free b (kzalloc_element alloc).
Proof.
  intros Hne m a m'. unfold kzalloc_element.
  destruct (alloc =? NULL); intros [= _ <-] Hb; [done|]. simpl.
  by rewrite lookup_insert_ne.
Qed.

Lemma keeps_free_set_last_error b code : keeps_free b (akvcam_set_last_error code).
Proof. intros m a m'. by intros [= _ <-]. Qed.

Ltac keeps_free_step :=
  first
    [ apply keeps_free_ret
    | apply keeps_free_store_list
    | apply keeps_free_store_node
    | apply keeps_free_set_last_error
    | apply keeps_free_read_only; first [apply read_only_load_list | apply read_only_load_node]
    | apply keeps_free_bind; [|intros ?]
    | match goal with
      | |- keeps_free _ (if ?b then _ else _) => destruct b
      end ].

Lemma keeps_free_push_back b alloc self data deleter :
  b ≠ alloc → keeps_free b (akvcam_list_push_back alloc self data deleter).
Proof.
  intros Hne. unfold akvcam_list_push_back.
  destruct (self =? NULL); [apply keeps_free_ret|].
  apply keeps_free_bind; [by apply keeps_free_kzalloc_element|]. intros element.
  unfold set_data, set_deleter, set_prev, set_next, set_size, set_head, set_tail.
  repeat keeps_free_step.
Qed.

(** ** Pushes *)

Lemma item_eta r : Item (it_node r) (it_data r) (it_deleter r) = r.
Proof. by destruct r. Qed.

Lemma push_back_each_done : ∀ reqs m self l,
  list_repr m self l →
  NoDup (it_node <$> allocated reqs) →
  (∀ r, r ∈ allocated reqs → nodes m !! it_node r = None) →
  Z.of_nat (length l + length (allocated reqs)) < 2 ^ 63 →
  ∃ m', push_back_each reqs self m
        = Done ((λ r, negb (it_node r =? NULL)) <$> reqs) m'
      ∧ list_repr m' self (l ++ allocated reqs).
Proof.
  induction reqs as [|r reqs IH]; intros m self l Hrepr Hnd Hfresh Hroom.
  - exists m. unfold allocated. simpl. by rewrite app_nil_r.
  - cbn [push_back_each fmap list_fmap]. unfold allocated in *.
    destruct (Z.eqb_spec (it_node r) NULL) as [Hnull|Hlive].
    + rewrite filter_cons_False in * by (by intros ?).
      rewrite Hnull. pose proof Hrepr as (Hself & _).
      exec_by akvcam_list_push_back_enomem.
      edestruct (IH (Machine (lists m) (nodes m) (bytes m) (- ENOMEM) (deleter_calls m))
                   self l) as (m' & Hrun & Hrepr'); try done.
      exec_by Hrun. by exists m'.
    + rewrite filter_cons_True in * by done.
      rewrite fmap_cons in Hnd. apply NoDup_cons in Hnd as [Hr Hnd].
      simpl in Hroom.
      destruct (akvcam_list_push_back_done m self l (it_node r) (it_data r) (it_deleter r))
        as (m1 & Hrun1 & Hrepr1 & _); try done.
      { apply Hfresh. left. }
      { lia. }
      rewrite item_eta in Hrepr1.
      exec_by Hrun1.
      edestruct (IH m1 self (l ++ [r])) as (m' & Hrun & Hrepr'); try done.
      { intros r' Hr'. eapply keeps_free_push_back; [|exact Hrun1|].
        - intros Heq. apply Hr. rewrite <- Heq. by apply list_elem_of_fmap_2.
        - apply Hfresh. by right. }
      { rewrite length_app. simpl. lia. }
      exec_by Hrun. exists m'. split; [done|]. by rewrite <- app_assoc in Hrepr'.
Qed.

(** ** Positional access, all cases *)

(** [akvcam_list_at] on a well-formed list: [NULL] past the end; the
    payload handle at position 0 and at interior positions; the address
    of the tail node at the last position of a list of two or more. *)
Theorem at_by_position m self l i :
  list_repr m self l → 0 ≤ i →
  akvcam_list_at self i m
  = Done (match l !! Z.to_nat i with
          | None => NULL
          | Some x =>
              if (0 <? i) && (i =? Z.of_nat (length l) - 1) then it_node x
              else it_data x
          end) m.
Proof.
  intros Hrepr Hi. case_eq (l !! Z.to_nat i).
  - intros x Hx.
    destruct (list_repr_split _ _ _ _ _ Hrepr Hx) as [Hsplit Hlen].
    rewrite <- (Z2Nat.id i), <- Hlen at 1 by done.
    rewrite (akvcam_list_at_member _ _ _ _ _ Hsplit). f_equal.
    pose proof (lookup_lt_Some _ _ _ Hx) as Hlt.
    assert (length (drop (S (Z.to_nat i)) l) = (length l - S (Z.to_nat i))%nat) as Hdrop
      by apply length_drop.
    destruct (take (Z.to_nat i) l) as [|y l1] eqn:Htake;
      destruct (drop (S (Z.to_nat i)) l) as [|z l2] eqn:Hdrp; simpl in Hlen, Hdrop.
    + assert (i = 0) as -> by lia. done.
    + assert (i = 0) as -> by lia. done.
    + destruct (Z.ltb_spec 0 i); [|lia].
      destruct (Z.eqb_spec i (Z.of_nat (length l) - 1)); [done|lia].
    + destruct (Z.eqb_spec i (Z.of_nat (length l) - 1)); [lia|].
      by rewrite andb_false_r.
  - intros Hnone. apply lookup_ge_None in Hnone.
    apply akvcam_list_at_out_of_range with l; [done|lia].
Qed.

Lemma at_by_position_witness :
  akvcam_list_at 1000 0 sample = Done 700 sample
  ∧ akvcam_list_at 1000 1 sample = Done NULL sample
  ∧ akvcam_list_at 1000 2 sample = Done 300 sample
  ∧ akvcam_list_at 1000 3 sample = Done NULL sample.
Proof.
  split_and!.
  - exact (at_by_position sample 1000 sample_items 0 sample_repr ltac:(lia)).
  - exact (at_by_position sample 1000 sample_items 1 sample_repr ltac:(lia)).
  - exact (at_by_position sample 1000 sample_items 2 sample_repr ltac:(lia)).
  - exact (at_by_position sample 1000 sample_items 3 sample_repr ltac:(lia)).
Defined.

(** ** Sequences of pushes *)

(** A sequence of [akvcam_list_push_back] calls appends, in call order,
    one element per call whose node allocation succeeds and nothing for
    the others; the size grows by the number of successful pushes, and
    every position but the last reads back its payload. *)
Theorem pushes_append_in_order reqs m self l :
  list_repr m self l →
  NoDup (it_node <$> allocated reqs) →
  (∀ r, r ∈ allocated reqs → nodes m !! it_node r = None) →
  Z.of_nat (length l + length (allocated reqs)) < 2 ^ 63 →
  ∃ m', push_back_each reqs self m
        = Done ((λ r, negb (it_node r =? NULL)) <$> reqs) m'
      ∧ list_repr m' self (l ++ allocated reqs)
      ∧ akvcam_list_size self m'
        = Done (Z.of_nat (length l) + Z.of_nat (length (allocated reqs))) m'
      ∧ ∀ i x, (l ++ allocated reqs) !! i = Some x →
               (S i < length (l ++ allocated reqs))%nat →
               akvcam_list_at self (Z.of_nat i) m' = Done (it_data x) m'.
Proof.
  intros Hrepr Hnd Hfresh Hroom.
  destruct (push_back_each_done reqs m self l Hrepr Hnd Hfresh Hroom)
    as (m' & Hrun & Hrepr').
  exists m'. split_and!; try done.
  - rewrite (akvcam_list_size_repr _ _ _ Hrepr'), length_app. f_equal. lia.
  - intros i x Hx Hlast.
    destruct (list_repr_split _ _ _ _ _ Hrepr' Hx) as [Hsplit Hlen].
    rewrite <- Hlen at 1.
    apply akvcam_list_at_payload with (drop (S i) (l ++ allocated reqs)); [done|].
    right. intros Hnil. apply (f_equal length) in Hnil.
    rewrite length_drop in Hnil. simpl in Hnil. lia.
Qed.

(** ** Push and pop *)

(** Pushing an element and popping the last position gives back the
    payload handle and the deleter that were pushed, frees the node, and
    leaves the list with the content it had, without any deleter call. *)
Theorem push_back_then_pop_last m self l alloc data deleter :
  list_repr m self l →
  alloc ≠ NULL → nodes m !! alloc = None →
  Z.of_nat (length l) + 1 < 2 ^ 63 →
  ∃ m1 m2,
    akvcam_list_push_back alloc self data deleter m = Done true m1
    ∧ akvcam_list_pop self (Z.of_nat (length l)) (Some NULL) (Some NULL) m1
      = Done (PopResult true (Some data) (Some deleter)) m2
    ∧ list_repr m2 self l
    ∧ nodes m2 !! alloc = None
    ∧ deleter_calls m2 = deleter_calls m.
Proof.
  intros Hrepr Ha Hf Hr.
  destruct (akvcam_list_push_back_done _ _ _ _ data deleter Hrepr Ha Hf Hr)
    as (m1 & Hrun1 & Hrepr1 & _ & Hcalls1 & _).
  destruct (akvcam_list_pop_member m1 self l _ [] (Some NULL) (Some NULL) Hrepr1)
    as (m2 & Hrun2 & Hrepr2 & Hfreed & Hcalls2 & _).
  rewrite app_nil_r in Hrepr2.
  exists m1, m2. split_and!; try done. congruence.
Qed.

(** After [akvcam_list_pop] at position [i], position [i] holds the
    element that was at [i + 1]: [akvcam_list_at] reads its payload
    handle, or the address of its node when it has become the last of
    two or more elements. *)
Theorem pop_then_at_reads_successor m self l1 x y l2 :
  list_repr m self (l1 ++ x :: y :: l2) →
  ∃ m', akvcam_list_pop self (Z.of_nat (length l1)) None None m
        = Done (PopResult true None None) m'
      ∧ akvcam_list_at self (Z.of_nat (length l1)) m'
        = Done (match l1, l2 with
                | _ :: _, [] => it_node y
                | _, _ => it_data y
                end) m'.
Proof.
  intros Hrepr.
  destruct (akvcam_list_pop_member m self l1 x (y :: l2) None None Hrepr)
    as (m' & Hrun & Hrepr' & _).
  exists m'. split; [done|]. by apply akvcam_list_at_member.
Qed.

Lemma pushes_append_in_order_witness :
  ∃ m', push_back_each [Item 400 710 0; Item NULL 720 0; Item 500 730 9] 1000 sample
        = Done [true; false; true] m'
      ∧ list_repr m' 1000 (sample_items ++ [Item 400 710 0; Item 500 730 9])
      ∧ akvcam_list_size 1000 m' = Done 5 m'
      ∧ ∀ i x, (sample_items ++ [Item 400 710 0; Item 500 730 9]) !! i = Some x →
               (S i < 5)%nat →
               akvcam_list_at 1000 (Z.of_nat i) m' = Done (it_data x) m'.
Proof.
  apply (pushes_append_in_order [Item 400 710 0; Item NULL 720 0; Item 500 730 9]
           sample 1000 sample_items sample_repr).
  - by apply (bool_decide_unpack (NoDup [400; 500])).
  - intros r Hr.
    change (r ∈ [Item 400 710 0; Item 500 730 9]) in Hr.
    apply elem_of_cons in Hr as [->|Hr]; [reflexivity|].
    apply list_elem_of_singleton in Hr as ->. reflexivity.
  - reflexivity.
Defined.

Lemma push_back_then_pop_last_witness :
  ∃ m1 m2,
    akvcam_list_push_back 400 1000 710 9 sample = Done true m1
    ∧ akvcam_list_pop 1000 3 (Some NULL) (Some NULL) m1
      = Done (PopResult true (Some 710) (Some 9)) m2
    ∧ list_repr m2 1000 sample_items
    ∧ nodes m2 !! 400 = None
    ∧ deleter_calls m2 = deleter_calls sample.
Proof.
  apply (push_back_then_pop_last sample 1000 sample_items 400 710 9 sample_repr);
    [done|reflexivity|reflexivity].
Defined.

Lemma pop_then_at_reads_successor_witness :
  ∃ m', akvcam_list_pop 1000 0 None None sample = Done (PopResult true None None) m'
      ∧ akvcam_list_at 1000 0 m' = Done NULL m'.
Proof.
  exact (pop_then_at_reads_successor sample 1000 [] (Item 100 700 0) (Item 200 0 9)
           [Item 300 800 9] sample_repr).
Defined.

(** ** Duplicated payloads *)

Lemma copy_bytes_fresh : ∀ (len : nat) (mem : gmap Z Z) dst src,
  (∀ k, 0 ≤ k < Z.of_nat len → is_Some (mem !! (src + k))) →
  (∀ k, 0 ≤ k < Z.of_nat len → mem !! (dst + k) = None) →
  ∃ mem', copy_bytes mem dst src len = Some mem'
        ∧ (∀ k, 0 ≤ k < Z.of_nat len → mem' !! (dst + k) = mem !! (src + k))
        ∧ (∀ a, ¬ (dst ≤ a < dst + Z.of_nat len) → mem' !! a = mem !! a).
Proof.
  induction len as [|len IH]; intros mem dst src Hsrc Hdst.
  - exists mem. split; [done|]. split; [intros k Hk; lia|done].
  - cbn [copy_bytes].
    destruct (Hsrc 0 ltac:(lia)) as [b Hb]. rewrite Z.add_0_r in Hb. rewrite Hb.
    assert (∀ k, 0 ≤ k < Z.of_nat (S len) → src + k ≠ dst) as Hapart.
    { intros k Hk Heq. destruct (Hsrc k Hk) as [c Hc].
      specialize (Hdst 0 ltac:(lia)). rewrite Z.add_0_r in Hdst. congruence. }
    destruct (IH (<[dst := b]> mem) (dst + 1) (src + 1)) as (mem' & Hrun & Hcopy & Hrest).
    { intros k Hk. rewrite lookup_insert_ne by (intros Heq; apply (Hapart (1 + k)); lia).
      replace (src + 1 + k) with (src + (1 + k)) by lia. apply Hsrc. lia. }
    { intros k Hk. rewrite lookup_insert_ne by lia.
      replace (dst + 1 + k) with (dst + (1 + k)) by lia. apply Hdst. lia. }
    exists mem'. split; [done|]. split.
    + intros k Hk. destruct (decide (k = 0)) as [->|Hk0].
      * rewrite !Z.add_0_r, Hrest by lia. by rewrite lookup_insert_eq.
      * replace (dst + k) with (dst + 1 + (k - 1)) by lia.
        rewrite Hcopy by lia.
        rewrite lookup_insert_ne by (intros Heq; apply (Hapart k); lia).
        f_equal. lia.
    + intros a Ha. rewrite Hrest by lia. rewrite lookup_insert_ne by lia. done.
Qed.

Lemma list_repr_with_bytes f m self l :
  list_repr m self l → list_repr (with_bytes f m) self l.
Proof. intros Hrepr. exact Hrepr. Qed.

(** [akvcam_list_push_back_copy] with both allocations succeeding
    appends an element whose payload handle is the new block; the block
    holds the bytes of the source, and no other byte of memory changes,
    so the list owns a copy that is independent of the caller's buffer. *)
Theorem push_back_copy_stores_duplicate m self l dup alloc data data_size deleter :
  list_repr m self l →
  alloc ≠ NULL → nodes m !! alloc = None →
  Z.of_nat (length l) + 1 < 2 ^ 63 →
  dup ≠ NULL → 0 ≤ data_size →
  (∀ k, 0 ≤ k < data_size → is_Some (bytes m !! (data + k))) →
  (∀ k, 0 ≤ k < data_size → bytes m !! (dup + k) = None) →
  ∃ m', akvcam_list_push_back_copy dup alloc self data data_size deleter m = Done true m'
      ∧ list_repr m' self (l ++ [Item alloc dup deleter])
      ∧ (∀ k, 0 ≤ k < data_size → bytes m' !! (dup + k) = bytes m !! (data + k))
      ∧ (∀ a, ¬ (dup ≤ a < dup + data_size) → bytes m' !! a = bytes m !! a).
Proof.
  intros Hrepr Ha Hf Hr Hdup Hsize Hsrc Hdst.
  destruct (copy_bytes_fresh (Z.to_nat data_size) (bytes m) dup data)
    as (mem' & Hcopy & Hsame & Hrest).
  { intros k Hk. apply Hsrc. lia. }
  { intros k Hk. apply Hdst. lia. }
  rewrite Z2Nat.id in Hsame, Hrest by done.
  assert (kmemdup dup data data_size m = Done dup (with_bytes (λ _, mem') m)) as Hdupd.
  { unfold kmemdup. destruct (Z.eqb_spec dup NULL) as [|_]; [done|]. by rewrite Hcopy. }
  destruct (akvcam_list_push_back_done (with_bytes (λ _, mem') m) self l alloc dup deleter)
    as (m' & Hrun & Hrepr' & _ & _ & Hbytes); try done.
  exists m'. unfold akvcam_list_push_back_copy. exec_by Hdupd.
  split_and!; try done.
  - intros k Hk. rewrite Hbytes. simpl. by apply Hsame.
  - intros a Hout. rewrite Hbytes. simpl. by apply Hrest.
Qed.

Lemma push_back_copy_stores_duplicate_witness :
  ∃ m', akvcam_list_push_back_copy 600 400 1000 900 1 9 sample = Done true m'
      ∧ list_repr m' 1000 (sample_items ++ [Item 400 600 9])
      ∧ (∀ k, 0 ≤ k < 1 → bytes m' !! (600 + k) = bytes sample !! (900 + k))
      ∧ (∀ a, ¬ (600 ≤ a < 600 + 1) → bytes m' !! a = bytes sample !! a).
Proof.
  apply (push_back_copy_stores_duplicate sample 1000 sample_items 600 400 900 1 9
           sample_repr); try done.
  - intros k Hk. assert (k = 0) as -> by lia. by eexists.
  - intros k Hk. assert (k = 0) as -> by lia. reflexivity.
Defined.

(** When the handle is null or the node allocation fails,
    [akvcam_list_push_back_copy] returns [false] with every header and
    node untouched, but [kmemdup] has already run and nothing frees its
    block: the copied bytes stay in memory, owned by nobody. *)
Theorem push_back_copy_failure_keeps_duplicate m self dup alloc data data_size deleter :
  self = NULL ∨ alloc = NULL →
  dup ≠ NULL → 0 ≤ data_size →
  (∀ k, 0 ≤ k < data_size → is_Some (bytes m !! (data + k))) →
  (∀ k, 0 ≤ k < data_size → bytes m !! (dup + k) = None) →
  ∃ m', akvcam_list_push_back_copy dup alloc self data data_size deleter m = Done false m'
      ∧ lists m' = lists m ∧ nodes m' = nodes m
      ∧ (∀ k, 0 ≤ k < data_size → bytes m' !! (dup + k) = bytes m !! (data + k)).
Proof.
  intros Hfail Hdup Hsize Hsrc Hdst.
  destruct (copy_bytes_fresh (Z.to_nat data_size) (bytes m) dup data)
    as (mem' & Hcopy & Hsame & _).
  { intros k Hk. apply Hsrc. lia. }
  { intros k Hk. apply Hdst. lia. }
  rewrite Z2Nat.id in Hsame by done.
  assert (kmemdup dup data data_size m = Done dup (with_bytes (λ _, mem') m)) as Hdupd.
  { unfold kmemdup. destruct (Z.eqb_spec dup NULL) as [|_]; [done|]. by rewrite Hcopy. }
  unfold akvcam_list_push_back_copy. exec_by Hdupd.
  destruct (Z.eqb_spec self NULL) as [->|Hself].
  - eexists. split; [reflexivity|]. done.
  - destruct Hfail as [Hnull| ->]; [done|].
    rewrite akvcam_list_push_back_enomem by done.
    eexists. split; [reflexivity|]. done.
Qed.

Lemma push_back_copy_failure_keeps_duplicate_witness :
  ∃ m', akvcam_list_push_back_copy 600 NULL 1000 900 1 9 sample = Done false m'
      ∧ lists m' = lists sample ∧ nodes m' = nodes sample
      ∧ (∀ k, 0 ≤ k < 1 → bytes m' !! (600 + k) = bytes sample !! (900 + k)).
Proof.
  apply (push_back_copy_failure_keeps_duplicate sample 1000 600 NULL 900 1 9);
    try done.
  - by right.
  - intros k Hk. assert (k = 0) as -> by lia. by eexists.
  - intros k Hk. assert (k = 0) as -> by lia. reflexivity.
Defined.

(** ** After clear *)

Lemma akvcam_list_clear_zeroes fuel m self l :
  list_repr m self l → (length l < fuel)%nat →
  ∃ h', akvcam_list_clear fuel self m
        = Done tt (Machine (<[self := List 0 0 0 0]> (lists m)) h' (bytes m)
                     (last_error m) (deleter_calls m ++ clear_calls l))
      ∧ (∀ a, a ∉ it_node <$> l → h' !! a = nodes m !! a).
Proof.
  intros (Hself & L & HL & Hsz & Hbound & Hseg & Hnd) Hfuel.
  unfold akvcam_list_clear.
  destruct (Z.eqb_spec self NULL) as [|_]; [done|].
  exec_by load_list_done.
  destruct (clear_loop_dlseg fuel m _ _ _ _ Hseg Hnd Hfuel) as (h' & Hrun & _ & Hkept).
  exec_by Hrun.
  erewrite store_list_done; [|done|simpl; eassumption].
  by exists h'.
Qed.

(** [akvcam_list_clear] ends with a [memset] of the whole header: after
    it the size, the head and the tail are zero and so is the object
    handle [self->self]; every query then answers as for an empty list,
    and a second [akvcam_list_clear] changes nothing and calls no
    deleter. *)
Theorem clear_zeroes_header fuel m self l :
  list_repr m self l → (length l < fuel)%nat →
  ∃ m', akvcam_list_clear fuel self m = Done tt m'
      ∧ lists m' !! self = Some (List NULL 0 NULL NULL)
      ∧ akvcam_list_size self m' = Done 0 m'
      ∧ akvcam_list_empty self m' = Done true m'
      ∧ (∀ i, 0 ≤ i → akvcam_list_at self i m' = Done NULL m')
      ∧ (∀ i, 0 ≤ i → akvcam_list_pop self i None None m'
                       = Done (PopResult false None None) m')
      ∧ (∀ data size equals, akvcam_list_find self data size equals m' = Done NULL m')
      ∧ akvcam_list_next self (Some NULL) m' = Done (NULL, Some NULL) m'
      ∧ akvcam_list_clear fuel self m' = Done tt m'.
Proof.
  intros Hrepr Hfuel.
  destruct (akvcam_list_clear_zeroes fuel m self l Hrepr Hfuel) as (h' & Hrun & _).
  destruct (akvcam_list_clear_repr fuel m self l Hrepr Hfuel) as (m' & Hrun' & Hempty & _).
  rewrite Hrun in Hrun'. injection Hrun' as <-.
  eexists. split; [exact Hrun|]. pose proof Hempty as (Hself & _).
  assert (fuel ≠ O) as Hpos by lia.
  split_and!.
  - simpl. apply lookup_insert_eq.
  - exact (akvcam_list_size_repr _ _ _ Hempty).
  - unfold akvcam_list_empty. destruct (Z.eqb_spec self NULL) as [|_]; [done|].
    exec_by load_list_done; [|simpl; apply lookup_insert_eq]. done.
  - intros i Hi. apply akvcam_list_at_out_of_range with []; [done|simpl; lia].
  - intros i Hi. apply (akvcam_list_pop_out_of_range _ _ [] i None None); [done|simpl; lia].
  - intros data size equals. by rewrite (akvcam_list_find_repr _ _ _ _ _ _ Hempty).
  - exact (akvcam_list_next_start _ _ _ Hempty).
  - unfold akvcam_list_clear. destruct (Z.eqb_spec self NULL) as [|_]; [done|].
    exec_by load_list_done; [|simpl; apply lookup_insert_eq]. simpl.
    destruct fuel as [|fuel']; [done|]. simpl.
    erewrite bind_done; [|reflexivity].
    erewrite store_list_done; [|done|simpl; apply lookup_insert_eq].
    unfold with_lists. simpl. by rewrite insert_insert_eq.
Qed.

Lemma clear_zeroes_header_witness :
  ∃ m', akvcam_list_clear 4 1000 sample = Done tt m'
      ∧ lists m' !! 1000 = Some (List NULL 0 NULL NULL)
      ∧ akvcam_list_size 1000 m' = Done 0 m'
      ∧ akvcam_list_empty 1000 m' = Done true m'
      ∧ (∀ i, 0 ≤ i → akvcam_list_at 1000 i m' = Done NULL m')
      ∧ (∀ i, 0 ≤ i → akvcam_list_pop 1000 i None None m'
                       = Done (PopResult false None None) m')
      ∧ (∀ data size equals, akvcam_list_find 1000 data size equals m' = Done NULL m')
      ∧ akvcam_list_next 1000 (Some NULL) m' = Done (NULL, Some NULL) m'
      ∧ akvcam_list_clear 4 1000 m' = Done tt m'.
Proof.
  apply (clear_zeroes_header 4 sample 1000 sample_items sample_repr).
  simpl. lia.
Defined.

(** ** erase *)

Lemma erase_loop_miss m element : ∀ l fuel prv cur lst,
  dlseg (nodes m) prv cur l lst NULL →
  element ∉ it_node <$> l →
  (length l < fuel)%nat →
  erase_loop fuel cur element m = Done tt m.
Proof.
  induction l as [|y l IH]; intros fuel prv cur lst Hseg Hnotin Hfuel;
    (destruct fuel as [|fuel]; [simpl in Hfuel; lia|]); simpl in Hseg.
  - destruct Hseg as [-> _]. done.
  - destruct Hseg as (-> & Hn & n & Hlk & Hseg).
    apply not_elem_of_cons in Hnotin as [Hay Hnotin].
    cbn [erase_loop]. destruct (Z.eqb_spec (it_node y) NULL) as [|_]; [done|].
    destruct (Z.eqb_spec (it_node y) element) as [|_]; [done|].
    exec_by load_node_done. simpl. eapply IH; eauto. simpl in Hfuel. lia.
Qed.

(** [akvcam_list_erase] with a reference that is not a node of the list
    (a node of another list, a stale reference, [NULL]) walks the whole
    chain and changes nothing. *)
Theorem erase_foreign_reference_is_noop fuel m self l element :
  list_repr m self l → element ∉ it_node <$> l → (length l < fuel)%nat →
  akvcam_list_erase fuel self element m = Done tt m.
Proof.
  intros (Hself & L & HL & Hsz & Hbound & Hseg & Hnd) Hnotin Hfuel.
  unfold akvcam_list_erase. exec_by load_list_done.
  by eapply erase_loop_miss.
Qed.

Lemma erase_foreign_reference_is_noop_witness :
  akvcam_list_erase 4 1000 NULL sample = Done tt sample
  ∧ akvcam_list_erase 4 1000 555 sample = Done tt sample.
Proof.
  split.
  - apply (erase_foreign_reference_is_noop 4 sample 1000 sample_items NULL sample_repr);
      [|simpl; lia].
    by apply (bool_decide_unpack (NULL ∉ it_node <$> sample_items)).
  - apply (erase_foreign_reference_is_noop 4 sample 1000 sample_items 555 sample_repr);
      [|simpl; lia].
    by apply (bool_decide_unpack (555 ∉ it_node <$> sample_items)).
Defined.

Lemma dlseg_last_node h prv cur l t lst nxt :
  dlseg h prv cur l lst nxt → last l = Some t → lst = it_node t.
Proof.
  intros Hseg [l' ->]%last_Some.
  by apply dlseg_snoc in Hseg as (p & _ & _ & -> & _).
Qed.

(** Erasing an interior element unlinks it correctly: the chain from
    [head] to [tail] carries the remaining elements in order and the
    node is freed; only the size is stale, one more than the number of
    elements.  With the size decremented the list would be well formed. *)
Theorem erase_interior_leaves_stale_size fuel m self l1 x l2 :
  list_repr m self (l1 ++ x :: l2) → l1 ≠ [] → l2 ≠ [] →
  (length l1 < fuel)%nat →
  ∃ m' L, akvcam_list_erase fuel self (it_node x) m = Done tt m'
      ∧ lists m' !! self = Some L
      ∧ l_size L = Z.of_nat (length (l1 ++ l2)) + 1
      ∧ nodes m' !! it_node x = None
      ∧ list_repr
          (with_lists (insert self (List (l_self L) (l_size L - 1) (l_head L) (l_tail L))) m')
          self (l1 ++ l2).
Proof.
  intros Hrepr Hne1 Hne2 Hfuel.
  destruct (akvcam_list_erase_member fuel m self l1 x l2 Hrepr Hfuel)
    as (h' & p & n & lst' & Hrun & Hfreed & H2 & H1).
  destruct Hrepr as (Hself & L & HL & Hsz & Hbound & Hseg & Hnd).
  destruct (H1 Hne1) as (L' & HL' & H1').
  assert (L' = L) as -> by congruence.
  assert (lst' = l_tail L) as ->.
  { destruct (last l2) as [t|] eqn:Ht; [|by apply last_None in Ht].
    rewrite (dlseg_last_node _ _ _ _ _ _ _ H2 Ht).
    symmetry. eapply dlseg_last_node; [exact Hseg|].
    rewrite last_app. simpl. rewrite last_cons, Ht. done. }
  apply NoDup_middle in Hnd as (_ & _ & _ & _ & Hnd12 & _).
  rewrite !length_app in *. simpl in *.
  eexists _, L. split; [exact Hrun|]. simpl. split_and!; try done.
  - rewrite Hsz. lia.
  - split; [done|]. eexists. simpl. rewrite lookup_insert_eq. split; [done|]. simpl.
    rewrite length_app. split_and!; try lia; try done.
    apply dlseg_app. eauto.
Qed.

Lemma erase_interior_leaves_stale_size_witness :
  ∃ m' L, akvcam_list_erase 4 1000 200 sample = Done tt m'
      ∧ lists m' !! 1000 = Some L
      ∧ l_size L = 3
      ∧ nodes m' !! 200 = None
      ∧ list_repr
          (with_lists (insert 1000 (List (l_self L) (l_size L - 1) (l_head L) (l_tail L))) m')
          1000 [Item 100 700 0; Item 300 800 9].
Proof.
  apply (erase_interior_leaves_stale_size 4 sample 1000
           [Item 100 700 0] (Item 200 0 9) [Item 300 800 9] sample_repr);
    [done|done|simpl; lia].
Defined.

(** Erasing the first element frees its node but leaves [self->head]
    pointing to it: the next access through the head ([akvcam_list_at]
    at 0, [akvcam_list_pop] at 0, a fresh iteration with
    [akvcam_list_next], [akvcam_list_clear]) reads freed memory. *)
Theorem erase_head_leaves_dangling_head fuel m self x l2 :
  list_repr m self (x :: l2) → (0 < fuel)%nat →
  ∃ m', akvcam_list_erase fuel self (it_node x) m = Done tt m'
      ∧ akvcam_list_at self 0 m' = Fault
      ∧ akvcam_list_pop self 0 None None m' = Fault
      ∧ akvcam_list_next self (Some NULL) m' = Fault
      ∧ akvcam_list_clear fuel self m' = Fault.
Proof.
  intros Hrepr Hfuel.
  destruct (akvcam_list_erase_member fuel m self [] x l2 Hrepr Hfuel)
    as (h' & p & n & lst' & Hrun & Hfreed & _).
  destruct Hrepr as (Hself & L & HL & Hsz & Hbound & Hseg & Hnd).
  simpl in Hseg. destruct Hseg as (Hh & Hn & _). simpl in Hsz, Hbound.
  pose proof Hn as Hn'. rewrite Hh in Hn'.
  assert (∀ c, load_node (l_head L)
                 (Machine (lists m) h' (bytes m) (last_error m) c) = Fault) as Hdead.
  { intros c. unfold load_node. rewrite Hh.
    destruct (Z.eqb_spec (it_node x) NULL) as [|_]; [done|]. simpl. by rewrite Hfreed. }
  eexists. split; [exact Hrun|].
  apply Z.eqb_neq in Hself as Hs.
  split_and!.
  - unfold akvcam_list_at. rewrite Hs.
    exec_by load_list_done. simpl.
    destruct (Z.geb_spec 0 (l_size L)); [lia|]. simpl.
    unfold bind. by rewrite Hdead.
  - unfold akvcam_list_pop. rewrite Hs.
    exec_by load_list_done.
    destruct (Z.geb_spec 0 (l_size L)); [lia|].
    destruct (Z.ltb_spec (l_size L) 1); [lia|]. simpl.
    erewrite bind_done; [|reflexivity].
    unfold bind at 1. by rewrite Hdead.
  - unfold akvcam_list_next. rewrite Hs. simpl.
    exec_by load_list_done.
    rewrite Hh. destruct (Z.eqb_spec (it_node x) NULL) as [|_]; [done|]. simpl.
    rewrite <- Hh. unfold bind. by rewrite Hdead.
  - unfold akvcam_list_clear. rewrite Hs.
    exec_by load_list_done.
    destruct fuel as [|fuel']; [lia|]. cbn [clear_loop].
    rewrite Hh. destruct (Z.eqb_spec (it_node x) NULL) as [|_]; [done|].
    rewrite <- Hh. unfold bind. by rewrite Hdead.
Qed.

Lemma erase_head_leaves_dangling_head_witness :
  ∃ m', akvcam_list_erase 4 1000 100 sample = Done tt m'
      ∧ akvcam_list_at 1000 0 m' = Fault
      ∧ akvcam_list_pop 1000 0 None None m' = Fault
      ∧ akvcam_list_next 1000 (Some NULL) m' = Fault
      ∧ akvcam_list_clear 4 1000 m' = Fault.
Proof.
  apply (erase_head_leaves_dangling_head 4 sample 1000
           (Item 100 700 0) [Item 200 0 9; Item 300 800 9] sample_repr).
  lia.
Defined.

Lemma sample_null_tail_repr : list_repr sample_null_tail 1000 sample_null_tail_items.
Proof.
  split; [done|]. exists (List 77 2 100 200).
  split; [reflexivity|]. split; [reflexivity|]. split; [reflexivity|]. split.
  - simpl. split; [done|]. split; [done|]. exists 200. split; [reflexivity|].
    split; [done|]. split; [done|]. exists 0. split; [reflexivity|]. done.
  - by apply (bool_decide_unpack (NoDup (it_node <$> sample_null_tail_items))).
Qed.

(** ** find *)

Lemma first_match_member mem equals data size l r :
  first_match mem equals data size l = Some r → r = NULL ∨ r ∈ it_node <$> l.
Proof.
  induction l as [|x l IH]; simpl.
  - intros [= <-]. by left.
  - destruct (payload_test mem equals (it_data x) data size) as [[|]|]; [| |done].
    + intros [= <-]. right. left.
    + intros Hr. destruct (IH Hr) as [->|Hin]; [by left|]. right. by right.
Qed.

(** An element returned by [akvcam_list_find] is a node of the list. *)
Theorem find_returns_member m self l data size equals r m' :
  list_repr m self l →
  akvcam_list_find self data size equals m = Done r m' →
  r = NULL ∨ r ∈ it_node <$> l.
Proof.
  intros Hrepr. rewrite (akvcam_list_find_repr _ _ _ _ _ _ Hrepr).
  unfold find_spec. destruct (last l) as [t|] eqn:Ht.
  - apply last_Some in Ht as [l' ->]. rewrite removelast_last.
    destruct ((size =? 0) && negb (given equals)); [intros [= <- _]; by left|].
    destruct (memcmp_bytes _ _ _ _) as [c|]; [|done]. simpl.
    destruct (c =? 0).
    + intros [= <- _]. right. rewrite fmap_app. apply elem_of_app. right. left.
    + destruct (first_match (bytes m) equals data size l') as [r'|] eqn:Hfm; [|done].
      intros [= <- _]. destruct (first_match_member _ _ _ _ _ _ Hfm) as [->|Hin].
      * by left.
      * right. rewrite fmap_app. apply elem_of_app. by left.
  - intros [= <- _]. by left.
Qed.

Lemma find_returns_member_witness : 100 = NULL ∨ 100 ∈ it_node <$> sample_items.
Proof.
  exact (find_returns_member sample 1000 sample_items 700 1 None 100 sample
           sample_repr eq_refl).
Defined.

(** A null payload handle is a legal element, but [akvcam_list_find]
    compares the bytes of the tail's payload first: when the tail holds a
    null payload and the length is positive, the search reads address 0
    and faults, with or without a predicate. *)
Theorem find_reads_null_tail_payload m self l t data size equals :
  list_repr m self l → last l = Some t → it_data t = NULL →
  0 < size → bytes m !! NULL = None →
  akvcam_list_find self data size equals m = Fault.
Proof.
  intros Hrepr Ht Hnull Hsize Hpage.
  rewrite (akvcam_list_find_repr _ _ _ _ _ _ Hrepr).
  unfold find_spec. rewrite Ht, Hnull.
  destruct (Z.eqb_spec size 0) as [|_]; [lia|]. simpl.
  destruct (Z.to_nat size) as [|n] eqn:Hn; [lia|]. simpl.
  by rewrite Hpage.
Qed.

Lemma find_reads_null_tail_payload_witness :
  akvcam_list_find 1000 900 1 (Some never_equal) sample_null_tail = Fault.
Proof.
  apply (find_reads_null_tail_payload sample_null_tail 1000 sample_null_tail_items
           (Item 200 0 9) 900 1 (Some never_equal) sample_null_tail_repr);
    [reflexivity|reflexivity|lia|reflexivity].
Defined.

(** ** Iteration *)

Lemma akvcam_list_next_advance m self l1 x l2 :
  list_repr m self (l1 ++ x :: l2) →
  akvcam_list_next self (Some (from_option it_node NULL (last l1))) m
  = Done (it_data x, Some (it_node x)) m.
Proof.
  intros Hrepr. destruct l1 as [|y l1 _] using rev_ind.
  - exact (akvcam_list_next_start _ _ _ Hrepr).
  - rewrite last_snoc. rewrite <- app_assoc in Hrepr.
    exact (akvcam_list_next_step _ _ _ _ _ Hrepr).
Qed.

Lemma akvcam_list_next_end m self l :
  list_repr m self l →
  akvcam_list_next self (Some (from_option it_node NULL (last l))) m
  = Done (NULL, Some NULL) m.
Proof.
  intros Hrepr. destruct l as [|t l _] using rev_ind.
  - exact (akvcam_list_next_start _ _ _ Hrepr).
  - rewrite last_snoc. exact (akvcam_list_next_step _ _ _ _ _ Hrepr).
Qed.

Lemma next_times_from m self : ∀ l2 l1,
  list_repr m self (l1 ++ l2) →
  next_times (length l2) self (from_option it_node NULL (last l1)) m
  = Done (it_data <$> l2, from_option it_node NULL (last (l1 ++ l2))) m
  ∧ next_times (S (length l2)) self (from_option it_node NULL (last l1)) m
    = Done ((it_data <$> l2) ++ [NULL], NULL) m.
Proof.
  induction l2 as [|x l2 IH]; intros l1 Hrepr.
  - rewrite app_nil_r in *. split; [done|].
    cbn [length next_times]. exec_by akvcam_list_next_end. done.
  - specialize (IH (l1 ++ [x])). rewrite <- app_assoc, last_snoc in IH.
    destruct (IH Hrepr) as [IH1 IH2]. split.
    + cbn [length next_times]. exec_by akvcam_list_next_advance. simpl.
      exec_by IH1. done.
    + change (S (length (x :: l2))) with (S (S (length l2))).
      cbn [next_times]. exec_by akvcam_list_next_advance. simpl.
      cbn [next_times] in IH2. exec_by IH2. done.
Qed.

(** Repeated calls of [akvcam_list_next] from the initial cursor return
    the payload handles of all the elements, once each, in head-to-tail
    order and leave the cursor on the tail; the next call returns [NULL]
    and puts the cursor back to its initial value, so a further call
    starts over. *)
Theorem iteration_visits_in_order m self l :
  list_repr m self l →
  next_times (length l) self NULL m
  = Done (it_data <$> l, from_option it_node NULL (last l)) m
  ∧ next_times (S (length l)) self NULL m = Done ((it_data <$> l) ++ [NULL], NULL) m.
Proof. intros Hrepr. exact (next_times_from m self l [] Hrepr). Qed.

Lemma iteration_visits_in_order_witness :
  next_times 3 1000 NULL sample = Done ([700; NULL; 800], 300) sample
  ∧ next_times 4 1000 NULL sample = Done ([700; NULL; 800; NULL], NULL) sample.
Proof. exact (iteration_visits_in_order sample 1000 sample_items sample_repr). Defined.

(** ** Construction and destruction *)

(** [akvcam_list_new] returns a well-formed empty list that holds the
    object handle, without touching the nodes or the last-error slot.
    When the object cannot be created it frees the header again and
    returns [NULL] with the memory exactly as before, and records
    nothing itself; when the header cannot be allocated it returns
    [NULL] and records [-ENOMEM]. *)
Theorem new_creates_empty_list m alloc object :
  alloc ≠ NULL → lists m !! alloc = None →
  (object ≠ NULL →
   ∃ m', akvcam_list_new alloc object m = Done alloc m'
       ∧ list_repr m' alloc []
       ∧ lists m' !! alloc = Some (List object 0 NULL NULL)
       ∧ (∀ p, p ≠ alloc → lists m' !! p = lists m !! p)
       ∧ nodes m' = nodes m
       ∧ last_error m' = last_error m)
  ∧ akvcam_list_new alloc NULL m = Done NULL m
  ∧ akvcam_list_new NULL object m
    = Done NULL (Machine (lists m) (nodes m) (bytes m) (- ENOMEM) (deleter_calls m)).
Proof.
  intros Halloc Hfresh.
  assert (∀ obj, bind (kzalloc_list alloc) (λ self,
              if self =? NULL then bind (akvcam_set_last_error (- ENOMEM)) (λ _, ret NULL)
              else bind (set_self self obj) (λ _,
                     bind (load_list self) (λ L,
                       if l_self L =? NULL then bind (kfree_list self) (λ _, ret NULL)
                       else ret self))) m
          = (if obj =? NULL then bind (kfree_list alloc) (λ _, ret NULL) else ret alloc)
              (with_lists (insert alloc (List obj 0 0 0)) m)) as Hnew.
  { intros obj. unfold kzalloc_list at 1. unfold bind at 1.
    destruct (Z.eqb_spec alloc NULL) as [|_]; [done|].
    destruct (Z.eqb_spec alloc NULL) as [|_]; [done|].
    unfold set_self.
    erewrite bind_done; cycle 1.
    { exec_by load_list_done; [|simpl; apply lookup_insert_eq].
      eapply store_list_done; [done|]. simpl. apply lookup_insert_eq. }
    unfold with_lists. simpl. rewrite insert_insert_eq.
    exec_by load_list_done; [|simpl; apply lookup_insert_eq]. done. }
  split_and!.
  - intros Hobj. unfold akvcam_list_new. rewrite Hnew.
    destruct (Z.eqb_spec object NULL) as [|_]; [done|].
    eexists. split; [reflexivity|]. simpl. split_and!; try done.
    + split; [done|]. eexists. simpl. rewrite lookup_insert_eq. split; [done|].
      simpl. split_and!; try done. apply NoDup_nil_2.
    + apply lookup_insert_eq.
    + intros p Hp. by apply lookup_insert_ne.
  - unfold akvcam_list_new. rewrite Hnew. simpl.
    rewrite (bind_done _ (kfree_list alloc) _ tt
               (with_lists (delete alloc)
                  (with_lists (insert alloc (List NULL 0 0 0)) m))).
    + unfold ret, with_lists. simpl. rewrite delete_insert_id by done. by destruct m.
    + unfold kfree_list. destruct (Z.eqb_spec alloc NULL) as [|_]; [done|].
      simpl. by rewrite lookup_insert_eq.
  - reflexivity.
Qed.

Lemma new_creates_empty_list_witness :
  (∃ m', akvcam_list_new 2000 55 sample = Done 2000 m'
       ∧ list_repr m' 2000 []
       ∧ lists m' !! 2000 = Some (List 55 0 NULL NULL)
       ∧ (∀ p, p ≠ 2000 → lists m' !! p = lists sample !! p)
       ∧ nodes m' = nodes sample
       ∧ last_error m' = last_error sample)
  ∧ akvcam_list_new 2000 NULL sample = Done NULL sample
  ∧ akvcam_list_new NULL 55 sample
    = Done NULL (Machine (lists sample) (nodes sample) (bytes sample) (- ENOMEM)
                   (deleter_calls sample)).
Proof.
  destruct (new_creates_empty_list sample 2000 55 ltac:(done) eq_refl)
    as (Hdone & Hobject & Hheader).
  split; [|by split]. by apply Hdone.
Defined.

(** [akvcam_list_delete]: while other references remain it does nothing;
    on the last one it clears the list (deleter calls as for
    [akvcam_list_clear], all the nodes freed), frees the header and
    resets the caller's pointer.  Because the clear has zeroed the whole
    header, the handle it then hands to [akvcam_object_free] is [NULL],
    not the object that was created with the list. *)
Theorem delete_releases_on_last_reference fuel m self l remaining :
  list_repr m self l → (length l < fuel)%nat →
  (0 < remaining →
   akvcam_list_delete remaining fuel (Some self) m = Done (Some self, []) m)
  ∧ (remaining ≤ 0 →
     ∃ m', akvcam_list_delete remaining fuel (Some self) m = Done (Some NULL, [NULL]) m'
         ∧ lists m' !! self = None
         ∧ deleter_calls m' = deleter_calls m ++ clear_calls l
         ∧ (∀ x, x ∈ l → nodes m' !! it_node x = None))
  ∧ akvcam_list_delete remaining fuel (Some NULL) m = Done (Some NULL, []) m
  ∧ akvcam_list_delete remaining fuel None m = Done (None, []) m.
Proof.
  intros Hrepr Hfuel. pose proof Hrepr as (Hself & L & HL & _).
  split_and!; [| |reflexivity|reflexivity].
  - intros Hpos. unfold akvcam_list_delete.
    destruct (Z.eqb_spec self NULL) as [|_]; [done|].
    exec_by load_list_done. destruct (Z.gtb_spec remaining 0); [done|lia].
  - intros Hlast. unfold akvcam_list_delete.
    destruct (Z.eqb_spec self NULL) as [|_]; [done|].
    exec_by load_list_done. destruct (Z.gtb_spec remaining 0); [lia|].
    destruct (akvcam_list_clear_zeroes fuel m self l Hrepr Hfuel) as (h' & Hrun & _).
    destruct (akvcam_list_clear_repr fuel m self l Hrepr Hfuel)
      as (m1 & Hrun' & _ & _ & Hfreed & _).
    rewrite Hrun in Hrun'. injection Hrun' as <-.
    exec_by Hrun.
    exec_by load_list_done; [|simpl; apply lookup_insert_eq].
    match goal with
    | |- context [bind (kfree_list self) _ ?m1] =>
        rewrite (bind_done m1 (kfree_list self) _ tt (with_lists (delete self) m1))
    end.
    + eexists. split; [reflexivity|]. simpl. split_and!; try done.
      apply lookup_delete_eq.
    + unfold kfree_list. destruct (Z.eqb_spec self NULL) as [|_]; [done|].
      simpl. by rewrite lookup_insert_eq.
Qed.

Lemma delete_releases_on_last_reference_witness :
  akvcam_list_delete 1 4 (Some 1000) sample = Done (Some 1000, []) sample
  ∧ ∃ m', akvcam_list_delete 0 4 (Some 1000) sample = Done (Some NULL, [NULL]) m'
        ∧ lists m' !! 1000 = None
        ∧ deleter_calls m' = deleter_calls sample ++ clear_calls sample_items
        ∧ (∀ x, x ∈ sample_items → nodes m' !! it_node x = None).
Proof.
  assert (length sample_items < 4)%nat as Hfuel by (simpl; lia).
  split.
  - destruct (delete_releases_on_last_reference 4 sample 1000 sample_items 1
                sample_repr Hfuel) as (Hshared & _).
    apply Hshared. lia.
  - destruct (delete_releases_on_last_reference 4 sample 1000 sample_items 0
                sample_repr Hfuel) as (_ & Hlast & _).
    apply Hlast. lia.
Defined.
